(** * TARO: identifier mapping and flat graph model

    A shallow embedding of
      - [src/main/python/Utils/IDMapper.py] (class [IDMapper]), and
      - the binary search and the CSR traversal of
        [src/main/resources/flatbuffers/TestTaroModel.py],
    together with the properties the design document states about them.

    Python objects are mutable and shared by reference, so the mapper is
    modelled over an explicit object store: an [IDMapper] value holds two
    references, one to its [dict] and one to its [list], and every method
    is a computation that reads and writes the store and may raise. *)

From stdpp Require Import gmap strings list fin_maps.
From Equations Require Import Equations.
From Stdlib Require Import ZArith Lia.

Local Open Scope Z_scope.

(** ** Python values, exceptions and the object store *)

Module Py.

(** The two exceptions the code can raise. *)
Inductive exn := KeyError | IndexError.

Inductive result (A : Type) :=
| Ok (a : A)
| Raise (e : exn).
Arguments Ok {A} a.
Arguments Raise {A} e.

(** A reference is the position of an object in the store. *)
Abbreviation ref := nat (only parsing).

(** The store keeps [dict[str, int]] objects and [list[str]] objects
    apart; a new object is put at the end, so a reference that was
    handed out stays valid for ever. *)
Record heap := Heap {
  dicts : list (gmap string Z);
  lists : list (list string)
}.

(** The object behind a reference. A reference comes from an allocation
    and so always points into the store; the default is for a position
    that no allocation has handed out. *)
Definition dict_at (h : heap) (r : ref) : gmap string Z :=
  default ∅ (dicts h !! r).

Definition list_at (h : heap) (r : ref) : list string :=
  default [] (lists h !! r).

(** A computation takes the store and gives a value or an exception,
    with the store as it is at that point. *)
Definition M (A : Type) : Type := heap -> result A * heap.

Definition ret {A} (a : A) : M A := fun h => (Ok a, h).

Definition raise {A} (e : exn) : M A := fun h => (Raise e, h).

Definition bind {A B} (c : M A) (k : A -> M B) : M B :=
  fun h =>
    match c h with
    | (Ok a, h') => k a h'
    | (Raise e, h') => (Raise e, h')
    end.

Definition eval {A} (c : M A) (h : heap) : result A := fst (c h).
Definition exec {A} (c : M A) (h : heap) : heap := snd (c h).

(** [{}] *)
Definition dict_new : M ref :=
  fun h => (Ok (length (dicts h)),
            {| dicts := dicts h ++ [∅]; lists := lists h |}).

(** [[]] *)
Definition list_new : M ref :=
  fun h => (Ok (length (lists h)),
            {| dicts := dicts h; lists := lists h ++ [[]] |}).

(** [k in d] *)
Definition dict_contains (d : ref) (k : string) : M bool :=
  fun h => (Ok (bool_decide (is_Some (dict_at h d !! k))), h).

(** [d[k]], which raises [KeyError] on a missing key. *)
Definition dict_getitem (d : ref) (k : string) : M Z :=
  fun h =>
    match dict_at h d !! k with
    | Some v => (Ok v, h)
    | None => (Raise KeyError, h)
    end.

(** [d[k] = v] *)
Definition dict_setitem (d : ref) (k : string) (v : Z) : M unit :=
  fun h => (Ok tt,
            {| dicts := alter (insert k v) d (dicts h); lists := lists h |}).

(** [d.copy()]: a new object with the same items. *)
Definition dict_copy (d : ref) : M ref :=
  fun h => (Ok (length (dicts h)),
            {| dicts := dicts h ++ [dict_at h d]; lists := lists h |}).

(** [len(l)] *)
Definition list_len (l : ref) : M Z :=
  fun h => (Ok (Z.of_nat (length (list_at h l))), h).

(** [l.append(x)] *)
Definition list_append (l : ref) (x : string) : M unit :=
  fun h => (Ok tt,
            {| dicts := dicts h; lists := alter (fun xs => xs ++ [x]) l (lists h) |}).

(** [l[i]]: a negative index counts from the end, and an index that is
    still outside the list raises [IndexError]. *)
Definition list_getitem (l : ref) (i : Z) : M string :=
  fun h =>
    let xs := list_at h l in
    let j := if i <? 0 then i + Z.of_nat (length xs) else i in
    if j <? 0 then (Raise IndexError, h)
    else match xs !! Z.to_nat j with
         | Some s => (Ok s, h)
         | None => (Raise IndexError, h)
         end.

End Py.

Import Py.

Notation "'let*' x ':=' c 'in' k" := (bind c (fun x => k))
  (at level 10, x name, c at level 100, k at level 200, only parsing).
Notation "'run' c 'in' k" := (bind c (fun _ => k))
  (at level 10, c at level 100, k at level 200, only parsing).

(** ** The class [IDMapper]

    A Python [str] is a sequence of code points; it is kept here as the
    [string] of its UTF-8 bytes, which has the same equality. A Python
    [int] is unbounded and is kept as a [Z]. *)

(** An instance holds references to its two containers. *)
Record IDMapper := {
  _str_to_int : ref;
  _int_to_str : ref
}.

Definition __init__ : M IDMapper :=
  let* d := dict_new in
  let* l := list_new in
  ret {| _str_to_int := d; _int_to_str := l |}.

Definition get_or_create (self : IDMapper) (external_id : string) : M Z :=
  let* present := dict_contains (_str_to_int self) external_id in
  if (present : bool) then dict_getitem (_str_to_int self) external_id
  else
    let* new_id := list_len (_int_to_str self) in
    run dict_setitem (_str_to_int self) external_id new_id in
    run list_append (_int_to_str self) external_id in
    ret new_id.

Definition to_internal (self : IDMapper) (external_id : string) : M Z :=
  dict_getitem (_str_to_int self) external_id.

Definition to_external (self : IDMapper) (internal_id : Z) : M string :=
  if internal_id <? 0 then raise IndexError
  else list_getitem (_int_to_str self) internal_id.

Definition contains_external (self : IDMapper) (external_id : string) : M bool :=
  dict_contains (_str_to_int self) external_id.

Definition contains_internal (self : IDMapper) (internal_id : Z) : M bool :=
  let* n := list_len (_int_to_str self) in
  ret ((0 <=? internal_id) && (internal_id <? n)).

Definition size (self : IDMapper) : M Z :=
  list_len (_int_to_str self).

Definition export_mappings (self : IDMapper) : M ref :=
  dict_copy (_str_to_int self).

(** ** Clients of the class

    A client makes a mapper and then calls its public methods in some
    order, catching what they raise (as the unit tests do with
    [assertRaises]). *)

Inductive op :=
| op_get_or_create (external_id : string)
| op_to_internal (external_id : string)
| op_to_external (internal_id : Z)
| op_contains_external (external_id : string)
| op_contains_internal (internal_id : Z)
| op_size
| op_export_mappings.

Inductive value :=
| VInt (z : Z)
| VStr (s : string)
| VBool (b : bool)
| VDict (r : ref).

Definition call (self : IDMapper) (o : op) : M value :=
  match o with
  | op_get_or_create x => let* i := get_or_create self x in ret (VInt i)
  | op_to_internal x => let* i := to_internal self x in ret (VInt i)
  | op_to_external i => let* s := to_external self i in ret (VStr s)
  | op_contains_external x => let* b := contains_external self x in ret (VBool b)
  | op_contains_internal i => let* b := contains_internal self i in ret (VBool b)
  | op_size => let* n := size self in ret (VInt n)
  | op_export_mappings => let* r := export_mappings self in ret (VDict r)
  end.

(** [try: c  except ...]: the exception becomes a value. *)
Definition attempt {A} (c : M A) : M (result A) :=
  fun h => (Ok (eval c h), exec c h).

Fixpoint calls (self : IDMapper) (ops : list op) : M (list (result value)) :=
  match ops with
  | [] => ret []
  | o :: ops' =>
      let* r := attempt (call self o) in
      let* rs := calls self ops' in
      ret (r :: rs)
  end.

(** The external strings a sequence of calls hands to [get_or_create]. *)
Fixpoint created (ops : list op) : list string :=
  match ops with
  | [] => []
  | op_get_or_create x :: ops' => x :: created ops'
  | _ :: ops' => created ops'
  end.

(** A client that mutates a [dict] it holds a reference to, in any way:
    [d[k] = v], [del d[k]], [d.clear()], [d.update(...)] and so on. *)
Definition dict_mutate (d : ref) (f : gmap string Z -> gmap string Z) : M unit :=
  fun h => (Ok tt, {| dicts := alter f d (dicts h); lists := lists h |}).

(** ** The state of a mapper, read off the store *)

Definition forward (self : IDMapper) (h : heap) : gmap string Z :=
  dict_at h (_str_to_int self).

Definition reverse (self : IDMapper) (h : heap) : list string :=
  list_at h (_int_to_str self).

(** The invariant of the data model: the two containers are allocated,
    [reverse[i]] is the string that [forward] sends to [i], and the two
    have the same number of entries. *)
Record mapper_inv (self : IDMapper) (h : heap) : Prop := {
  inv_dict_alloc : (_str_to_int self < length (dicts h))%nat;
  inv_list_alloc : (_int_to_str self < length (lists h))%nat;
  inv_rev_fwd : forall (n : nat) (s : string),
      reverse self h !! n = Some s -> forward self h !! s = Some (Z.of_nat n);
  inv_fwd_rev : forall (s : string) (i : Z),
      forward self h !! s = Some i ->
      0 <= i /\ reverse self h !! Z.to_nat i = Some s;
  inv_size : base.size (forward self h) = length (reverse self h)
}.

(** How the store may change while a client uses the mapper: the forward
    mapping only gains entries, objects are never dropped, and a [dict]
    other than the mapper's own is left as it is. *)
Record evolves (self : IDMapper) (h h' : heap) : Prop := {
  ev_forward : forall s i,
      forward self h !! s = Some i -> forward self h' !! s = Some i;
  ev_dicts : (length (dicts h) <= length (dicts h'))%nat;
  ev_frame : forall r,
      (r < length (dicts h))%nat -> r <> _str_to_int self ->
      dict_at h' r = dict_at h r
}.

(** Two stores in which the mapper looks the same. *)
Record agree (self : IDMapper) (h1 h2 : heap) : Prop := {
  ag_forward : forward self h1 = forward self h2;
  ag_lists : lists h1 = lists h2;
  ag_dicts : length (dicts h1) = length (dicts h2)
}.

(** ** Whole clients

    [client ops k] makes a mapper, makes the calls [ops] on it and goes on
    with [k]. Every state a mapper can be in through its public methods is
    the state in which some [k] starts. *)

Definition client {A} (ops : list op) (k : IDMapper -> M A) : M A :=
  let* self := __init__ in
  run calls self ops in
  k self.

(** [returns c h0 P]: from the store [h0] the computation [c] returns a
    value, and the value and the store it leaves satisfy [P]. *)
Definition returns {A} (c : M A) (h0 : heap) (P : A -> heap -> Prop) : Prop :=
  match c h0 with
  | (Ok a, h) => P a h
  | (Raise _, _) => False
  end.

(** All the items of a [dict], as its holder sees them. *)
Definition dict_items (d : ref) : M (gmap string Z) :=
  fun h => (Ok (dict_at h d), h).

(** The store of a program that has made no object yet. *)
Definition empty_heap : heap := {| dicts := []; lists := [] |}.

(** The two registrations of [test_simple_ascii]. *)
Definition test_simple_ascii : list op :=
  [op_get_or_create "NewYork"; op_get_or_create "LosAngeles"].

(** Python's [s * n] on strings. *)
Fixpoint string_repeat (s : string) (n : nat) : string :=
  match n with
  | O => EmptyString
  | S n' => String.append s (string_repeat s n')
  end.

(** ** The sorted index of integer external ids

    The test [test_id_mapping_binary_search] reads the ids back from the
    serialized model through the accessors of the table [IdMapping] and
    searches them with a local function. *)

(** Modelled from the spec: the table [IdMapping] of the serialized model
    (module [taro.model.IdMapping], generated by the FlatBuffers compiler
    and not kept with the source files). It holds [external_ids], an
    ordered sequence of 64-bit integers. *)
Record IdMapping := {
  external_ids : list Z
}.

(** Modelled from the spec: the accessor [ExternalIdsLength] of the table,
    the length of the sequence. *)
Definition ExternalIdsLength (mapping : IdMapping) : Z :=
  Z.of_nat (length (external_ids mapping)).

(** Modelled from the spec: the accessor [ExternalIds] of the table, the
    element at position [j]. A position outside the sequence has no
    element. *)
Definition ExternalIds (mapping : IdMapping) (j : Z) : option Z :=
  if j <? 0 then None else external_ids mapping !! Z.to_nat j.

(** The [while left <= right] loop of [find_internal_id]. The result is
    [None] only if the loop reads outside the sequence. *)
Equations? find_internal_id_loop
    (mapping : IdMapping) (ext_id left right : Z) : option Z
  by wf (Z.to_nat (right - left + 1)) lt :=
  find_internal_id_loop mapping ext_id l r with Z_le_gt_dec l r => {
    | right _ => Some (-1)
    | left Hle with ExternalIds mapping ((l + r) / 2) => {
      | None => None
      | Some mid_val with Z.eq_dec mid_val ext_id => {
        | left _ => Some ((l + r) / 2)
        | right _ with Z_lt_ge_dec mid_val ext_id => {
          | left _ => find_internal_id_loop mapping ext_id ((l + r) / 2 + 1) r
          | right _ => find_internal_id_loop mapping ext_id l ((l + r) / 2 - 1)
          }
        }
      }
    }.
Proof.
  all: assert (l <= (l + r) / 2 <= r)
    by (split; [apply Z.div_le_lower_bound | apply Z.div_le_upper_bound]; lia);
    lia.
Qed.

Definition find_internal_id (mapping : IdMapping) (ext_id : Z) : option Z :=
  find_internal_id_loop mapping ext_id 0 (ExternalIdsLength mapping - 1).

(** The precondition of the index: each id is below the next one. *)
Fixpoint strictly_ascending (ids : list Z) : bool :=
  match ids with
  | a :: (b :: _) as rest => (a <? b) && strictly_ascending rest
  | _ => true
  end.

(** ** The CSR topology

    The test [test_csr_graph_traversal] reads the two offset entries of a
    node and then the targets of the edges in between. *)

(** Modelled from the spec: the table [GraphTopology] of the serialized
    model (module [taro.model.GraphTopology], generated by the FlatBuffers
    compiler and not kept with the source files), with the integer fields
    of the data model: [first_edge] has one offset for each node and one
    more, [edge_target] has the target of each edge. The weights and the
    coordinates are floating point numbers and are left out. *)
Record GraphTopology := {
  node_count : Z;
  edge_count : Z;
  first_edge : list Z;
  edge_target : list Z
}.

(** Modelled from the spec: the accessor [FirstEdge] of the table, the
    offset at position [j]. A position outside the sequence has no
    element. *)
Definition FirstEdge (topo : GraphTopology) (j : Z) : option Z :=
  if j <? 0 then None else first_edge topo !! Z.to_nat j.

(** Modelled from the spec: the accessor [EdgeTarget] of the table, the
    target of the edge at position [j]. *)
Definition EdgeTarget (topo : GraphTopology) (j : Z) : option Z :=
  if j <? 0 then None else edge_target topo !! Z.to_nat j.

(** Python's [range(start, stop)]. *)
Definition range (start stop : Z) : list Z :=
  seqZ start (stop - start).

(** [start = topo.FirstEdge(n); end = topo.FirstEdge(n + 1)] *)
Definition neighbors (topo : GraphTopology) (node : Z) : option (Z * Z) :=
  match FirstEdge topo node, FirstEdge topo (node + 1) with
  | Some node_start, Some node_end => Some (node_start, node_end)
  | _, _ => None
  end.

(** [for i in range(start, end): neighbors.append(topo.EdgeTarget(i))] *)
Definition neighbor_targets (topo : GraphTopology) (node_start node_end : Z)
  : option (list Z) :=
  mapM (EdgeTarget topo) (range node_start node_end).

(** The topology of the test: [0->[1,2], 1->[2], 2->[3], 3->[]]. *)
Definition test_topology : GraphTopology := {|
  node_count := 4;
  edge_count := 4;
  first_edge := [0; 2; 3; 4; 4];
  edge_target := [1; 2; 2; 3]
|}.

(** The ids of the test [test_id_mapping_binary_search]. *)
Definition test_mapping : IdMapping := {|
  external_ids := [100; 200; 300; 400; 500]
|}.

(** ** More clients of the mapper *)

(** [[mapper.get_or_create(s) for s in strings]], as in
    [test_hash_collisions]. *)
Fixpoint get_or_create_all (self : IDMapper) (strings : list string)
  : M (list Z) :=
  match strings with
  | [] => ret []
  | s :: rest =>
      let* id_val := get_or_create self s in
      let* ids := get_or_create_all self rest in
      ret (id_val :: ids)
  end.

(** [[mapper.to_external(id_val) for id_val in ids]], the reverse lookups
    that [test_hash_collisions] compares with the strings. *)
Fixpoint to_external_all (self : IDMapper) (ids : list Z) : M (list string) :=
  match ids with
  | [] => ret []
  | id_val :: rest =>
      let* s := to_external self id_val in
      let* strings := to_external_all self rest in
      ret (s :: strings)
  end.

(** The strings of a sequence in the order in which they first occur. *)
Definition register (seen : list string) (x : string) : list string :=
  if decide (x ∈ seen) then seen else seen ++ [x].

Definition first_seen (xs : list string) : list string :=
  foldl register [] xs.

(** The methods that only look something up. *)
Definition is_lookup (o : op) : bool :=
  match o with
  | op_get_or_create _ | op_export_mappings => false
  | _ => true
  end.

Definition is_export (o : op) : bool :=
  match o with
  | op_export_mappings => true
  | _ => false
  end.

(** A program with two instances of the class, made one after the other
    as [setUp] makes one for each test. *)
Definition two_mappers {A} (k : IDMapper -> IDMapper -> M A) : M A :=
  let* first := __init__ in
  let* second := __init__ in
  k first second.

(** Two stores in which the containers of a mapper are allocated and have
    the same items. *)
Record same_view (self : IDMapper) (h1 h2 : heap) : Prop := {
  sv_forward : forward self h1 = forward self h2;
  sv_reverse : reverse self h1 = reverse self h2;
  sv_dict1 : (_str_to_int self < length (dicts h1))%nat;
  sv_dict2 : (_str_to_int self < length (dicts h2))%nat;
  sv_list1 : (_int_to_str self < length (lists h1))%nat;
  sv_list2 : (_int_to_str self < length (lists h2))%nat
}.

(** ** More about the searched sequence *)

(** A sequence in which no id is above the next one; ids may repeat. *)
Fixpoint ascending (ids : list Z) : bool :=
  match ids with
  | a :: (b :: _) as rest => (a <=? b) && ascending rest
  | _ => true
  end.

(** ** More about the CSR topology *)

(** The targets of the edges that leave a node: the two reads of
    [neighbors] and then the loop of [neighbor_targets], as the tests do
    them one after the other. *)
Definition neighbor_list (topo : GraphTopology) (node : Z) : option (list Z) :=
  match neighbors topo node with
  | Some (node_start, node_end) => neighbor_targets topo node_start node_end
  | None => None
  end.

(** The shape that the arrays of a topology have when they are built as
    [test_csr_performance_benchmark] builds them: one offset for each node
    and one more, offsets that start at 0, do not go down and end at the
    number of edges, and targets that are nodes. *)
Definition csr_wf (topo : GraphTopology) : bool :=
  (Z.of_nat (length (first_edge topo)) =? node_count topo + 1)
  && ascending (first_edge topo)
  && bool_decide (head (first_edge topo) = Some 0)
  && bool_decide (last (first_edge topo)
                  = Some (Z.of_nat (length (edge_target topo))))
  && forallb (fun t => (0 <=? t) && (t <? node_count topo)) (edge_target topo).

(** [random.randint(a, b)] at the draw number [pos] of a generator whose
    raw numbers are [rng]: some integer from [a] to [b] when [a <= b], which
    is how the benchmark calls it. *)
Definition randint (rng : nat -> Z) (pos : nat) (a b : Z) : Z :=
  a + rng pos mod (b - a + 1).

(** A weight of the benchmark, [random.random() * 100]. The floating point
    number is not computed: a weight is kept as the raw number of the
    generator that it is made from. *)
Inductive float :=
| random_times_100 (raw : Z).

(** The variables of the benchmark while it builds the arrays: the number
    of draws made from the generator, [first_edge], [edge_target],
    [weights] and [current_edge]. *)
Record csr_build := {
  b_draws : nat;
  b_first_edge : list Z;
  b_edge_target : list Z;
  b_weights : list float;
  b_current_edge : Z
}.

(** [first_edge = [0]; edge_target = []; weights = []; current_edge = 0] *)
Definition csr_start : csr_build := {|
  b_draws := 0;
  b_first_edge := [0];
  b_edge_target := [];
  b_weights := [];
  b_current_edge := 0
|}.

(** The body of [for _ in range(degree)]. *)
Definition csr_add_edge (rng : nat -> Z) (node_count : Z) (st : csr_build)
  : csr_build := {|
  b_draws := S (S (b_draws st));
  b_first_edge := b_first_edge st;
  b_edge_target :=
    b_edge_target st ++ [randint rng (b_draws st) 0 (node_count - 1)];
  b_weights := b_weights st ++ [random_times_100 (rng (S (b_draws st)))];
  b_current_edge := b_current_edge st + 1
|}.

(** The body of [for node in range(node_count)]. *)
Definition csr_add_node (rng : nat -> Z) (node_count edge_count : Z)
    (st : csr_build) : csr_build :=
  let degree := randint rng (b_draws st) 0 10 in
  let degree := Z.min degree (edge_count - b_current_edge st) in
  let st' :=
    Nat.iter (Z.to_nat degree) (csr_add_edge rng node_count)
      {| b_draws := S (b_draws st);
         b_first_edge := b_first_edge st;
         b_edge_target := b_edge_target st;
         b_weights := b_weights st;
         b_current_edge := b_current_edge st |} in
  {| b_draws := b_draws st';
     b_first_edge := b_first_edge st' ++ [b_current_edge st'];
     b_edge_target := b_edge_target st';
     b_weights := b_weights st';
     b_current_edge := b_current_edge st' |}.

Definition csr_generate (rng : nat -> Z) (node_count edge_count : Z)
  : csr_build :=
  Nat.iter (Z.to_nat node_count) (csr_add_node rng node_count edge_count)
    csr_start.

(** The topology that the benchmark writes and reads back: [node_count],
    [current_edge] as the number of edges, and the two integer arrays,
    which it stores with 32-bit elements. *)
Definition benchmark_topology (rng : nat -> Z) (node_count edge_count : Z)
  : GraphTopology :=
  let st := csr_generate rng node_count edge_count in
  {| node_count := node_count;
     edge_count := b_current_edge st;
     first_edge := b_first_edge st;
     edge_target := b_edge_target st |}.

(** Modelled from the spec: the table [GraphTopology] as the benchmark
    reads it, with its field [base_weights] beside the integer fields, one
    weight for each edge (module [taro.model.GraphTopology], generated by
    the FlatBuffers compiler and not kept with the source files). *)
Record WeightedTopology := {
  w_topology : GraphTopology;
  base_weights : list float
}.

(** Modelled from the spec: the accessor [BaseWeights] of the table, the
    weight of the edge at position [j]. A position outside the sequence
    has no element. *)
Definition BaseWeights (topo : WeightedTopology) (j : Z) : option float :=
  if j <? 0 then None else base_weights topo !! Z.to_nat j.

(** The topology of the benchmark with the weights it has built. *)
Definition benchmark_weighted_topology (rng : nat -> Z)
    (node_count edge_count : Z) : WeightedTopology := {|
  w_topology := benchmark_topology rng node_count edge_count;
  base_weights := b_weights (csr_generate rng node_count edge_count)
|}.

(** [for e in range(edge_start, edge_end): target = topo.EdgeTarget(e);
    weight = topo.BaseWeights(e); total_neighbors += 1], the inner loop of
    the benchmark. *)
Definition count_edges (topo : WeightedTopology) (total_neighbors : Z)
    (edge_start edge_end : Z) : option Z :=
  foldl (fun total e =>
           match total, EdgeTarget (w_topology topo) e, BaseWeights topo e with
           | Some n, Some _, Some _ => Some (n + 1)
           | _, _, _ => None
           end)
    (Some total_neighbors) (range edge_start edge_end).

(** The [queries] rounds of the benchmark, from the draw number [pos] on:
    a node is drawn, its two offsets are read, and the target and the
    weight of each of its edges are read and counted. The result is [None]
    if a read falls outside an array. *)
Fixpoint benchmark_queries (rng : nat -> Z) (topo : WeightedTopology)
    (queries : nat) (pos : nat) (total_neighbors : Z) : option Z :=
  match queries with
  | O => Some total_neighbors
  | S queries' =>
      let node_id :=
        randint rng pos 0 (node_count (w_topology topo) - 1) in
      match neighbors (w_topology topo) node_id with
      | Some (edge_start, edge_end) =>
          match count_edges topo total_neighbors edge_start edge_end with
          | Some total => benchmark_queries rng topo queries' (S pos) total
          | None => None
          end
      | None => None
      end
  end.

(** What holds of the variables of the benchmark after [nodes] rounds of
    its outer loop. *)
Definition build_inv (node_count edge_count : Z) (nodes : nat)
    (st : csr_build) : Prop :=
  length (b_first_edge st) = S nodes
  /\ b_first_edge st !! 0%nat = Some 0
  /\ (forall (i : nat) (a b : Z),
        b_first_edge st !! i = Some a -> b_first_edge st !! S i = Some b ->
        a <= b <= a + 10)
  /\ b_first_edge st !! nodes = Some (b_current_edge st)
  /\ b_current_edge st = Z.of_nat (length (b_edge_target st))
  /\ b_current_edge st <= Z.max edge_count 0
  /\ Forall (fun t => 0 <= t < node_count) (b_edge_target st).

(** The values of a [numpy] array of [dtype=np.int32], in which the
    benchmark stores [first_edge] and [edge_target]. *)
Definition int32 (z : Z) : Prop := - 2 ^ 31 <= z < 2 ^ 31.

(** ** Facts about the store *)

Section store.

Implicit Types (h : heap) (r : ref) (d : gmap string Z) (xs : list string).

Lemma dict_at_alter h h' f r :
  dicts h' = alter f r (dicts h) ->
  (r < length (dicts h))%nat ->
  dict_at h' r = f (dict_at h r).
Proof.
  intros E Hr. unfold dict_at. rewrite E.
  destruct (lookup_lt_is_Some_2 _ r Hr) as [d Hd].
  rewrite list_lookup_alter_eq, Hd. reflexivity.
Qed.

Lemma dict_at_alter_ne h h' f r r' :
  dicts h' = alter f r (dicts h) ->
  r <> r' ->
  dict_at h' r' = dict_at h r'.
Proof.
  intros E Hne. unfold dict_at. rewrite E.
  rewrite list_lookup_alter_ne by congruence. reflexivity.
Qed.

Lemma list_at_alter h h' f r :
  lists h' = alter f r (lists h) ->
  (r < length (lists h))%nat ->
  list_at h' r = f (list_at h r).
Proof.
  intros E Hr. unfold list_at. rewrite E.
  destruct (lookup_lt_is_Some_2 _ r Hr) as [d Hd].
  rewrite list_lookup_alter_eq, Hd. reflexivity.
Qed.

Lemma dict_at_app h h' d r :
  dicts h' = dicts h ++ [d] ->
  (r < length (dicts h))%nat ->
  dict_at h' r = dict_at h r.
Proof.
  intros E Hr. unfold dict_at. rewrite E.
  rewrite lookup_app_l by assumption. reflexivity.
Qed.

Lemma dict_at_app_new h h' d :
  dicts h' = dicts h ++ [d] ->
  dict_at h' (length (dicts h)) = d.
Proof.
  intros E. unfold dict_at. rewrite E.
  rewrite lookup_app_r by lia.
  replace (length (dicts h) - length (dicts h))%nat with 0%nat by lia.
  reflexivity.
Qed.

Lemma dict_at_same h h' r : dicts h' = dicts h -> dict_at h' r = dict_at h r.
Proof. intros E. unfold dict_at. rewrite E. reflexivity. Qed.

Lemma list_at_same h h' r : lists h' = lists h -> list_at h' r = list_at h r.
Proof. intros E. unfold list_at. rewrite E. reflexivity. Qed.

End store.

(** ** What each method does to the state *)

Section methods.

Variables (self : IDMapper) (h : heap).

Lemma get_or_create_hit x i :
  forward self h !! x = Some i ->
  get_or_create self x h = (Ok i, h).
Proof.
  unfold forward. intros Hx.
  unfold get_or_create, bind, dict_contains, dict_getitem.
  rewrite Hx, bool_decide_eq_true_2 by eauto. simpl. rewrite Hx. reflexivity.
Qed.

Lemma get_or_create_miss x :
  forward self h !! x = None ->
  eval (get_or_create self x) h = Ok (Z.of_nat (length (reverse self h))).
Proof.
  unfold forward. intros Hx.
  unfold eval, get_or_create, bind, dict_contains, dict_getitem.
  rewrite Hx. rewrite bool_decide_eq_false_2 by (intros [? ?]; discriminate).
  reflexivity.
Qed.

Lemma get_or_create_miss_forward x :
  (_str_to_int self < length (dicts h))%nat ->
  forward self h !! x = None ->
  forward self (exec (get_or_create self x) h)
  = <[x := Z.of_nat (length (reverse self h))]> (forward self h).
Proof.
  unfold forward. intros Ha Hx.
  unfold exec, get_or_create, bind, dict_contains, dict_getitem.
  rewrite Hx. rewrite bool_decide_eq_false_2 by (intros [? ?]; discriminate).
  simpl. apply dict_at_alter; [reflexivity | assumption].
Qed.

Lemma get_or_create_miss_reverse x :
  (_int_to_str self < length (lists h))%nat ->
  forward self h !! x = None ->
  reverse self (exec (get_or_create self x) h) = reverse self h ++ [x].
Proof.
  unfold forward, reverse. intros Ha Hx.
  unfold exec, get_or_create, bind, dict_contains, dict_getitem.
  rewrite Hx. rewrite bool_decide_eq_false_2 by (intros [? ?]; discriminate).
  simpl. apply (list_at_alter h _ (fun xs => xs ++ [x])); [reflexivity | assumption].
Qed.

(** [get_or_create] touches no [dict] but the mapper's own, and it neither
    makes nor drops an object. *)
Lemma get_or_create_frame x r :
  r <> _str_to_int self ->
  dict_at (exec (get_or_create self x) h) r = dict_at h r.
Proof.
  intros Hne.
  unfold exec, get_or_create, bind, dict_contains, dict_getitem.
  destruct (dict_at h (_str_to_int self) !! x) eqn:Hx.
  - rewrite bool_decide_eq_true_2 by eauto. simpl. rewrite Hx. reflexivity.
  - rewrite bool_decide_eq_false_2 by (intros [? ?]; discriminate).
    simpl. eapply dict_at_alter_ne; [reflexivity | congruence].
Qed.

Lemma get_or_create_lengths x :
  length (dicts (exec (get_or_create self x) h)) = length (dicts h)
  /\ length (lists (exec (get_or_create self x) h)) = length (lists h).
Proof.
  unfold exec, get_or_create, bind, dict_contains, dict_getitem.
  destruct (dict_at h (_str_to_int self) !! x) eqn:Hx.
  - rewrite bool_decide_eq_true_2 by eauto. simpl. rewrite Hx. split; reflexivity.
  - rewrite bool_decide_eq_false_2 by (intros [? ?]; discriminate).
    simpl. rewrite !length_alter. split; reflexivity.
Qed.

End methods.

(** ** The invariant is established by [__init__] and kept by every call *)

Lemma bind_ok {A B} (c : M A) (k : A -> M B) h a h' :
  c h = (Ok a, h') -> bind c k h = k a h'.
Proof. intros E. unfold bind. rewrite E. reflexivity. Qed.

Lemma mapper_inv_transfer self h h' :
  mapper_inv self h ->
  forward self h' = forward self h ->
  reverse self h' = reverse self h ->
  (length (dicts h) <= length (dicts h'))%nat ->
  (length (lists h) <= length (lists h'))%nat ->
  mapper_inv self h'.
Proof.
  intros [Hd Hl Hrf Hfr Hs] Ef Er Ld Ll.
  constructor; rewrite ?Ef, ?Er; try assumption; lia.
Qed.

Lemma init_run h0 :
  exists self h,
    __init__ h0 = (Ok self, h)
    /\ mapper_inv self h
    /\ forward self h = ∅
    /\ reverse self h = []
    /\ (length (dicts h0) <= length (dicts h))%nat
    /\ (forall r, (r < length (dicts h0))%nat -> dict_at h r = dict_at h0 r).
Proof.
  exists {| _str_to_int := length (dicts h0); _int_to_str := length (lists h0) |},
         {| dicts := dicts h0 ++ [∅]; lists := lists h0 ++ [[]] |}.
  split; [reflexivity |].
  assert (Ef : forward {| _str_to_int := length (dicts h0);
                          _int_to_str := length (lists h0) |}
                 {| dicts := dicts h0 ++ [∅]; lists := lists h0 ++ [[]] |} = ∅).
  { unfold forward; simpl. apply (dict_at_app_new h0). reflexivity. }
  assert (Er : reverse {| _str_to_int := length (dicts h0);
                          _int_to_str := length (lists h0) |}
                 {| dicts := dicts h0 ++ [∅]; lists := lists h0 ++ [[]] |} = []).
  { unfold reverse, list_at; simpl. rewrite lookup_app_r by lia.
    replace (length (lists h0) - length (lists h0))%nat with 0%nat by lia.
    reflexivity. }
  split; [| split; [exact Ef | split; [exact Er | split]]].
  - constructor.
    + simpl. rewrite length_app. simpl. lia.
    + simpl. rewrite length_app. simpl. lia.
    + intros n s Hn. rewrite Er in Hn. destruct n; discriminate.
    + intros s i Hs. rewrite Ef, lookup_empty in Hs. discriminate.
    + rewrite Ef, Er. apply map_size_empty.
  - simpl. rewrite length_app. lia.
  - intros r Hr. apply (dict_at_app h0 _ ∅); [reflexivity | assumption].
Qed.

Lemma get_or_create_inv self h x :
  mapper_inv self h -> mapper_inv self (exec (get_or_create self x) h).
Proof.
  intros Hinv. destruct (forward self h !! x) as [i |] eqn:Hx.
  - unfold exec. rewrite (get_or_create_hit self h x i Hx). exact Hinv.
  - pose proof (get_or_create_lengths self h x) as [Ld Ll].
    destruct Hinv as [Hd Hl Hrf Hfr Hs].
    pose proof (get_or_create_miss_forward self h x Hd Hx) as Ef.
    pose proof (get_or_create_miss_reverse self h x Hl Hx) as Er.
    constructor; rewrite ?Ef, ?Er, ?Ld, ?Ll; try assumption.
    + intros n s Hn.
      destruct (decide (n < length (reverse self h))%nat) as [Hlt | Hge].
      * rewrite lookup_app_l in Hn by assumption.
        pose proof (Hrf _ _ Hn) as Hf.
        rewrite lookup_insert_ne; [assumption | congruence].
      * rewrite lookup_app_r in Hn by lia.
        destruct (n - length (reverse self h))%nat as [| k] eqn:Hk;
          simpl in Hn; [| rewrite ?lookup_nil in Hn; discriminate].
        injection Hn as <-.
        replace n with (length (reverse self h)) by lia.
        apply lookup_insert_eq.
    + intros s i Hsi.
      destruct (decide (x = s)) as [<- | Hne].
      * rewrite lookup_insert_eq in Hsi. injection Hsi as <-.
        split; [lia |]. rewrite Nat2Z.id.
        rewrite lookup_app_r by lia.
        replace (length (reverse self h) - length (reverse self h))%nat
          with 0%nat by lia.
        reflexivity.
      * rewrite lookup_insert_ne in Hsi by assumption.
        destruct (Hfr _ _ Hsi) as [Hi Hr]. split; [assumption |].
        apply lookup_app_l_Some. assumption.
    + rewrite map_size_insert_None by assumption.
      rewrite length_app. simpl. lia.
Qed.

Lemma evolves_refl self h : evolves self h h.
Proof. constructor; auto. Qed.

Lemma evolves_trans self h1 h2 h3 :
  evolves self h1 h2 -> evolves self h2 h3 -> evolves self h1 h3.
Proof.
  intros [F1 D1 R1] [F2 D2 R2]. constructor.
  - auto.
  - lia.
  - intros r Hr Hne. rewrite R2 by (try lia; assumption). auto.
Qed.

Lemma exec_bind_ret {A B} (c : M A) (f : A -> B) h :
  exec (let* a := c in ret (f a)) h = exec c h.
Proof. unfold exec, bind, ret. destruct (c h) as [[a | e] h']; reflexivity. Qed.

Lemma eval_bind_ret {A B} (c : M A) (f : A -> B) h :
  eval (let* a := c in ret (f a)) h
  = match eval c h with Ok a => Ok (f a) | Raise e => Raise e end.
Proof. unfold eval, bind, ret. destruct (c h) as [[a | e] h']; reflexivity. Qed.

Section readonly.

Variables (self : IDMapper) (h : heap).

Lemma to_internal_exec x : exec (to_internal self x) h = h.
Proof.
  unfold exec, to_internal, dict_getitem.
  destruct (dict_at h (_str_to_int self) !! x); reflexivity.
Qed.

Lemma to_external_exec i : exec (to_external self i) h = h.
Proof.
  unfold exec, to_external, list_getitem, raise.
  destruct (i <? 0); [reflexivity |]. simpl.
  destruct (i <? 0); [reflexivity |].
  destruct (list_at h (_int_to_str self) !! Z.to_nat i); reflexivity.
Qed.

Lemma contains_external_exec x : exec (contains_external self x) h = h.
Proof. reflexivity. Qed.

Lemma contains_internal_exec i : exec (contains_internal self i) h = h.
Proof. reflexivity. Qed.

Lemma size_exec : exec (size self) h = h.
Proof. reflexivity. Qed.

End readonly.

Lemma get_or_create_evolves self h x :
  mapper_inv self h ->
  evolves self h (exec (get_or_create self x) h)
  /\ dom (forward self (exec (get_or_create self x) h))
     = dom (forward self h) ∪ {[ x ]}.
Proof.
  intros Hinv. destruct (forward self h !! x) as [i |] eqn:Hx.
  - unfold exec. rewrite (get_or_create_hit self h x i Hx). simpl.
    split; [apply evolves_refl |].
    assert (x ∈ dom (forward self h)) by (apply elem_of_dom; eauto).
    set_solver.
  - pose proof (get_or_create_lengths self h x) as [Ld Ll].
    pose proof (get_or_create_miss_forward self h x (inv_dict_alloc _ _ Hinv) Hx)
      as Ef.
    split.
    + constructor.
      * intros s i Hs. rewrite Ef.
        rewrite lookup_insert_ne; [assumption | congruence].
      * lia.
      * intros r _ Hne. apply get_or_create_frame. assumption.
    + rewrite Ef, dom_insert_L. set_solver.
Qed.

Lemma export_mappings_run self h :
  export_mappings self h
  = (Ok (length (dicts h)),
     {| dicts := dicts h ++ [forward self h]; lists := lists h |}).
Proof. reflexivity. Qed.

Lemma export_mappings_step self h :
  mapper_inv self h ->
  mapper_inv self (exec (export_mappings self) h)
  /\ evolves self h (exec (export_mappings self) h)
  /\ forward self (exec (export_mappings self) h) = forward self h.
Proof.
  intros Hinv. unfold exec. rewrite export_mappings_run. simpl.
  assert (Ef : forward self
                 {| dicts := dicts h ++ [forward self h]; lists := lists h |}
               = forward self h).
  { apply (dict_at_app h _ (forward self h)); [reflexivity |].
    apply (inv_dict_alloc _ _ Hinv). }
  split; [| split; [| exact Ef]].
  - apply (mapper_inv_transfer self h); auto; simpl; rewrite ?length_app; lia.
  - constructor.
    + intros s i Hs. rewrite Ef. assumption.
    + simpl. rewrite length_app. lia.
    + intros r Hr _. apply (dict_at_app h _ (forward self h)); auto.
Qed.

Lemma call_step self h o :
  mapper_inv self h ->
  mapper_inv self (exec (call self o) h)
  /\ evolves self h (exec (call self o) h)
  /\ dom (forward self (exec (call self o) h))
     = dom (forward self h) ∪ list_to_set (created [o]).
Proof.
  intros Hinv. destruct o as [x | x | i | x | i | |]; simpl call;
    rewrite exec_bind_ret; simpl created.
  - destruct (get_or_create_evolves self h x Hinv) as [Hev Hdom].
    split; [apply get_or_create_inv; assumption | split; [assumption |]].
    rewrite Hdom. set_solver.
  - rewrite to_internal_exec.
    split; [assumption | split; [apply evolves_refl | set_solver]].
  - rewrite to_external_exec.
    split; [assumption | split; [apply evolves_refl | set_solver]].
  - rewrite contains_external_exec.
    split; [assumption | split; [apply evolves_refl | set_solver]].
  - rewrite contains_internal_exec.
    split; [assumption | split; [apply evolves_refl | set_solver]].
  - rewrite size_exec.
    split; [assumption | split; [apply evolves_refl | set_solver]].
  - destruct (export_mappings_step self h Hinv) as (Hi & Hev & Ef).
    split; [assumption | split; [assumption |]].
    rewrite Ef. set_solver.
Qed.

Lemma calls_run self ops : forall h,
  mapper_inv self h ->
  exists rs h',
    calls self ops h = (Ok rs, h')
    /\ length rs = length ops
    /\ mapper_inv self h'
    /\ evolves self h h'
    /\ dom (forward self h') = dom (forward self h) ∪ list_to_set (created ops).
Proof.
  induction ops as [| o ops IH]; intros h Hinv.
  - exists [], h. simpl.
    split; [reflexivity | split; [reflexivity | split; [assumption |]]].
    split; [apply evolves_refl | set_solver].
  - destruct (call_step self h o Hinv) as (Hi1 & Hev1 & Hdom1).
    destruct (IH _ Hi1) as (rs & h' & Hrun & Hlen & Hi2 & Hev2 & Hdom2).
    exists (eval (call self o) h :: rs), h'.
    split; [| split; [simpl; lia | split; [assumption | split]]].
    + simpl calls. unfold bind at 1, attempt. unfold bind at 1.
      rewrite Hrun. reflexivity.
    + eapply evolves_trans; eassumption.
    + rewrite Hdom2, Hdom1. destruct o; simpl created; set_solver.
Qed.

Lemma client_run h0 ops :
  exists self h,
    mapper_inv self h
    /\ dom (forward self h) = list_to_set (created ops)
    /\ forall A (k : IDMapper -> M A), client ops k h0 = k self h.
Proof.
  destruct (init_run h0) as (self & h1 & Hinit & Hinv1 & Ef & _).
  destruct (calls_run self ops h1 Hinv1) as (rs & h & Hrun & _ & Hinv & _ & Hdom).
  exists self, h. split; [assumption | split].
  - rewrite Hdom, Ef, dom_empty_L. set_solver.
  - intros A k. unfold client.
    rewrite (bind_ok _ _ _ _ _ Hinit), (bind_ok _ _ _ _ _ Hrun). reflexivity.
Qed.

Lemma to_external_run self h i :
  to_external self i h
  = (if i <? 0 then Raise IndexError
     else match reverse self h !! Z.to_nat i with
          | Some s => Ok s
          | None => Raise IndexError
          end, h).
Proof.
  unfold to_external, list_getitem, raise, reverse.
  destruct (i <? 0) eqn:Hi; [reflexivity |]. simpl. rewrite Hi.
  destruct (list_at h (_int_to_str self) !! Z.to_nat i); reflexivity.
Qed.

Lemma to_internal_run self h x :
  to_internal self x h
  = (match forward self h !! x with
     | Some i => Ok i
     | None => Raise KeyError
     end, h).
Proof.
  unfold to_internal, dict_getitem, forward.
  destruct (dict_at h (_str_to_int self) !! x); reflexivity.
Qed.

Lemma get_or_create_run self h x :
  mapper_inv self h ->
  exists i h',
    get_or_create self x h = (Ok i, h')
    /\ mapper_inv self h'
    /\ forward self h' !! x = Some i
    /\ evolves self h h'
    /\ (forward self h !! x = None -> i = Z.of_nat (length (reverse self h))).
Proof.
  intros Hinv. destruct (forward self h !! x) as [i |] eqn:Hx.
  - exists i, h. rewrite (get_or_create_hit self h x i Hx).
    split; [reflexivity | split; [assumption | split; [assumption |]]].
    split; [apply evolves_refl | discriminate].
  - exists (Z.of_nat (length (reverse self h))), (exec (get_or_create self x) h).
    split; [| split; [| split; [| split]]].
    + rewrite <- (get_or_create_miss self h x Hx).
      unfold eval, exec. destruct (get_or_create self x h); reflexivity.
    + apply get_or_create_inv. assumption.
    + rewrite (get_or_create_miss_forward self h x (inv_dict_alloc _ _ Hinv) Hx).
      apply lookup_insert_eq.
    + apply get_or_create_evolves. assumption.
    + reflexivity.
Qed.

Lemma to_external_of_forward self h x i :
  mapper_inv self h ->
  forward self h !! x = Some i ->
  to_external self i h = (Ok x, h).
Proof.
  intros Hinv Hx. destruct (inv_fwd_rev _ _ Hinv _ _ Hx) as [Hi Hr].
  rewrite to_external_run, Hr.
  destruct (i <? 0) eqn:E; [lia | reflexivity].
Qed.

Lemma size_run self h :
  size self h = (Ok (Z.of_nat (length (reverse self h))), h).
Proof. reflexivity. Qed.

Lemma distinct_count (l : list string) :
  base.size (list_to_set l : gset string) = length (remove_dups l).
Proof.
  rewrite <- (size_list_to_set (C := gset string) (remove_dups l))
    by apply NoDup_remove_dups.
  f_equal. apply set_eq. intros s.
  rewrite !elem_of_list_to_set, elem_of_remove_dups. reflexivity.
Qed.

(** ** Properties of the identifier builder *)

(** C1. Whatever calls were made before and whatever calls come in
    between, two [get_or_create] calls with the same string return the
    same id; a string no [get_or_create] call has seen yet gets the size
    of the mapper as its id; and the size is the number of distinct
    strings the [get_or_create] calls have seen. *)
Theorem get_or_create_ids (h0 : heap) (ops ops' : list op) (x : string) :
  (exists i,
      eval (client ops (fun self =>
              let* a := get_or_create self x in
              run calls self ops' in
              let* b := get_or_create self x in
              ret (a, b))) h0 = Ok (i, i))
  /\ (x ∉ created ops ->
      exists n,
        eval (client ops (fun self =>
                let* n := size self in
                let* i := get_or_create self x in
                ret (n, i))) h0 = Ok (n, n))
  /\ eval (client ops size) h0
     = Ok (Z.of_nat (length (remove_dups (created ops)))).
Proof.
  destruct (client_run h0 ops) as (self & h & Hinv & Hdom & Hk).
  unfold eval. rewrite !Hk. split; [| split].
  - destruct (get_or_create_run self h x Hinv) as (i & h1 & Hg & Hinv1 & Hx & _).
    destruct (calls_run self ops' h1 Hinv1) as (rs & h2 & Hrun & _ & _ & Hev & _).
    exists i.
    rewrite (bind_ok _ _ _ _ _ Hg), (bind_ok _ _ _ _ _ Hrun).
    rewrite (bind_ok _ _ _ _ _
               (get_or_create_hit self h2 x i (ev_forward _ _ _ Hev _ _ Hx))).
    reflexivity.
  - intros Hnew.
    assert (Hx : forward self h !! x = None).
    { apply not_elem_of_dom. rewrite Hdom, elem_of_list_to_set. assumption. }
    destruct (get_or_create_run self h x Hinv) as (i & h1 & Hg & _ & _ & _ & Hi).
    exists (Z.of_nat (length (reverse self h))).
    rewrite (bind_ok _ _ _ _ _ (size_run self h)), (bind_ok _ _ _ _ _ Hg).
    rewrite (Hi Hx). reflexivity.
  - rewrite size_run. simpl.
    rewrite <- (inv_size _ _ Hinv), <- distinct_count, <- Hdom, size_dom.
    reflexivity.
Qed.

Lemma get_or_create_ids_witness :
  ("Boston" ∉ created test_simple_ascii)
  /\ exists n,
      eval (client test_simple_ascii (fun self =>
              let* n := size self in
              let* i := get_or_create self "Boston" in
              ret (n, i))) empty_heap = Ok (n, n).
Proof.
  assert (Hnew : "Boston" ∉ created test_simple_ascii)
    by (apply (bool_decide_unpack _); vm_compute; exact I).
  split; [exact Hnew |].
  exact (proj1 (proj2 (get_or_create_ids empty_heap test_simple_ascii []
                         "Boston")) Hnew).
Defined.

(** C2. In every state of a mapper, [to_external(get_or_create(x))] is [x],
    for every string [x] whatever its characters and its length. *)
Theorem to_external_get_or_create (h0 : heap) (ops : list op) (x : string) :
  eval (client ops (fun self =>
          let* i := get_or_create self x in
          to_external self i)) h0 = Ok x.
Proof.
  destruct (client_run h0 ops) as (self & h & Hinv & _ & Hk).
  unfold eval. rewrite Hk.
  destruct (get_or_create_run self h x Hinv) as (i & h' & Hg & Hinv' & Hx & _).
  rewrite (bind_ok _ _ _ _ _ Hg), (to_external_of_forward _ _ _ _ Hinv' Hx).
  reflexivity.
Qed.

Lemma attempt_run {A} (c : M A) h : attempt c h = (Ok (eval c h), exec c h).
Proof. reflexivity. Qed.

Lemma list_getitem_exec l i h : exec (list_getitem l i) h = h.
Proof.
  unfold exec, list_getitem. simpl.
  destruct (_ <? 0); [reflexivity |].
  destruct (list_at h l !! _); reflexivity.
Qed.

(** C3. [to_external] raises [IndexError] exactly for a negative id and for
    an id that is not below the size. In particular an id [i] with
    [-size <= i < 0] is refused, although indexing the list with it
    directly gives the element at [size + i]. *)
Theorem to_external_out_of_range (h0 : heap) (ops : list op) (i : Z) :
  exists n raw wrapped r,
    eval (client ops (fun self =>
            let* n := size self in
            let* raw := attempt (list_getitem (_int_to_str self) i) in
            let* wrapped := attempt (to_external self (n + i)) in
            let* r := attempt (to_external self i) in
            ret (n, raw, wrapped, r))) h0 = Ok (n, raw, wrapped, r)
    /\ (r = Raise IndexError <-> i < 0 \/ n <= i)
    /\ (- n <= i < 0 -> raw = wrapped /\ exists s, raw = Ok s).
Proof.
  destruct (client_run h0 ops) as (self & h & Hinv & _ & Hk).
  unfold eval. rewrite Hk.
  rewrite (bind_ok _ _ _ _ _ (size_run self h)).
  rewrite (bind_ok _ _ _ _ _ (attempt_run _ h)), list_getitem_exec.
  rewrite (bind_ok _ _ _ _ _ (attempt_run _ h)), to_external_exec.
  rewrite (bind_ok _ _ _ _ _ (attempt_run _ h)), to_external_exec.
  do 4 eexists. split; [reflexivity |].
  unfold eval. rewrite !to_external_run. simpl.
  set (n := Z.of_nat (length (reverse self h))).
  split.
  - destruct (i <? 0) eqn:Hi; [split; [lia | reflexivity] |].
    destruct (reverse self h !! Z.to_nat i) as [s |] eqn:Hs.
    + apply lookup_lt_Some in Hs. split; [discriminate | lia].
    + apply lookup_ge_None in Hs. split; [lia | reflexivity].
  - intros Hneg. unfold list_getitem, reverse in *. simpl.
    destruct (i <? 0) eqn:Hi; [| lia]. fold n.
    replace (i + n) with (n + i) by lia.
    destruct (n + i <? 0) eqn:Hj; [lia |].
    destruct (lookup_lt_is_Some_2 (list_at h (_int_to_str self)) (Z.to_nat (n + i)))
      as [s Hs]; [lia |].
    rewrite Hs. eauto.
Qed.

Lemma to_external_out_of_range_witness :
  exists n raw wrapped r,
    eval (client test_simple_ascii (fun self =>
            let* n := size self in
            let* raw := attempt (list_getitem (_int_to_str self) (-1)) in
            let* wrapped := attempt (to_external self (n + -1)) in
            let* r := attempt (to_external self (-1)) in
            ret (n, raw, wrapped, r))) empty_heap = Ok (n, raw, wrapped, r)
    /\ (- n <= -1 < 0)
    /\ raw = wrapped
    /\ (exists s, raw = Ok s)
    /\ r = Raise IndexError.
Proof.
  destruct (to_external_out_of_range empty_heap test_simple_ascii (-1))
    as (n & raw & wrapped & r & Hrun & Hiff & Hwrap).
  exists n, raw, wrapped, r.
  assert (Hn : n = 2).
  { pose proof Hrun as Hc. vm_compute in Hc. injection Hc as Hc _ _ _.
    symmetry. exact Hc. }
  assert (Hneg : - n <= -1 < 0) by lia.
  destruct (Hwrap Hneg) as [Hsame Hs].
  split; [exact Hrun | split; [exact Hneg | split; [exact Hsame |]]].
  split; [exact Hs | apply Hiff; lia].
Defined.

(** C4. [to_internal] raises [KeyError] exactly for a string that no
    [get_or_create] call has registered, and for a registered string it
    returns the id that [get_or_create] gave it. *)
Theorem to_internal_registered (h0 : heap) (ops ops' : list op) (x : string) :
  (eval (client ops (fun self => to_internal self x)) h0 = Raise KeyError
   <-> x ∉ created ops)
  /\ exists i,
      eval (client ops (fun self =>
              let* i := get_or_create self x in
              run calls self ops' in
              let* j := to_internal self x in
              ret (i, j))) h0 = Ok (i, i).
Proof.
  destruct (client_run h0 ops) as (self & h & Hinv & Hdom & Hk).
  unfold eval. rewrite !Hk. split.
  - rewrite to_internal_run. simpl.
    rewrite <- (elem_of_list_to_set (C := gset string)), <- Hdom.
    rewrite not_elem_of_dom.
    destruct (forward self h !! x); split; congruence.
  - destruct (get_or_create_run self h x Hinv) as (i & h1 & Hg & Hinv1 & Hx & _).
    destruct (calls_run self ops' h1 Hinv1) as (rs & h2 & Hrun & _ & _ & Hev & _).
    exists i.
    rewrite (bind_ok _ _ _ _ _ Hg), (bind_ok _ _ _ _ _ Hrun).
    unfold bind. rewrite to_internal_run, (ev_forward _ _ _ Hev _ _ Hx).
    reflexivity.
Qed.

(** C8. After [__init__] and any sequence of calls of the public methods,
    every id below the length of the reverse list has there the one string
    that the forward mapping sends to it, the forward mapping assigns no
    other ids, and the two containers have the same number of entries. *)
Theorem mapper_invariant (h0 : heap) (ops : list op) :
  returns (client ops ret) h0 (fun self h =>
    (forall i : Z, 0 <= i < Z.of_nat (length (reverse self h)) ->
       exists s, reverse self h !! Z.to_nat i = Some s
                 /\ forward self h !! s = Some i
                 /\ forall s', forward self h !! s' = Some i -> s' = s)
    /\ (forall s i, forward self h !! s = Some i ->
          0 <= i < Z.of_nat (length (reverse self h)))
    /\ length (reverse self h) = base.size (forward self h)).
Proof.
  destruct (client_run h0 ops) as (self & h & Hinv & _ & Hk).
  unfold returns. rewrite Hk. simpl.
  destruct Hinv as [_ _ Hrf Hfr Hs]. split; [| split].
  - intros i Hi.
    destruct (lookup_lt_is_Some_2 (reverse self h) (Z.to_nat i)) as [s Hs'];
      [lia |].
    exists s. split; [assumption | split].
    + rewrite (Hrf _ _ Hs'). f_equal. lia.
    + intros s' Hs''. destruct (Hfr _ _ Hs'') as [_ Hr]. congruence.
  - intros s i Hsi. destruct (Hfr _ _ Hsi) as [Hi Hr].
    apply lookup_lt_Some in Hr. lia.
  - symmetry. assumption.
Qed.

Lemma mapper_invariant_witness :
  returns (client test_simple_ascii ret) empty_heap (fun self h =>
    0 <= 1 < Z.of_nat (length (reverse self h))
    /\ exists s, reverse self h !! Z.to_nat 1 = Some s
                 /\ forward self h !! s = Some 1).
Proof.
  pose proof (mapper_invariant empty_heap test_simple_ascii) as Hinv.
  unfold returns in *.
  destruct (client test_simple_ascii ret empty_heap) as [[self | e] h] eqn:Hrun;
    [| exact Hinv].
  destruct Hinv as (Hrev & _ & _).
  assert (Hrange : 0 <= 1 < Z.of_nat (length (reverse self h))).
  { vm_compute in Hrun. injection Hrun as <- <-.
    vm_compute. split; [discriminate | reflexivity]. }
  split; [exact Hrange |].
  destruct (Hrev 1 Hrange) as (s & Hs & Hf & _).
  exists s. split; assumption.
Defined.

(** C9. In every state of a mapper and for every id [i] with
    [0 <= i < size()], [to_internal(to_external(i))] is [i]. *)
Theorem to_internal_to_external (h0 : heap) (ops : list op) (i n : Z) :
  eval (client ops size) h0 = Ok n ->
  0 <= i < n ->
  eval (client ops (fun self =>
          let* s := to_external self i in
          to_internal self s)) h0 = Ok i.
Proof.
  destruct (client_run h0 ops) as (self & h & Hinv & _ & Hk).
  unfold eval. rewrite !Hk, size_run. simpl. intros [= <-] Hi.
  destruct (lookup_lt_is_Some_2 (reverse self h) (Z.to_nat i)) as [s Hs];
    [lia |].
  unfold bind. rewrite to_external_run, Hs.
  destruct (i <? 0) eqn:E; [lia |].
  rewrite to_internal_run, (inv_rev_fwd _ _ Hinv _ _ Hs). simpl.
  f_equal. lia.
Qed.

Lemma to_internal_to_external_witness :
  eval (client test_simple_ascii size) empty_heap = Ok 2
  /\ 0 <= 1 < 2
  /\ eval (client test_simple_ascii (fun self =>
             let* s := to_external self 1 in
             to_internal self s)) empty_heap = Ok 1.
Proof.
  assert (Hsize : eval (client test_simple_ascii size) empty_heap = Ok 2)
    by (vm_compute; reflexivity).
  assert (Hrange : 0 <= 1 < 2) by lia.
  split; [exact Hsize | split; [exact Hrange |]].
  exact (to_internal_to_external empty_heap test_simple_ascii 1 2 Hsize Hrange).
Defined.

Lemma contains_external_run self h x :
  contains_external self x h
  = (Ok (bool_decide (is_Some (forward self h !! x))), h).
Proof. reflexivity. Qed.

Lemma contains_internal_run self h i :
  contains_internal self i h
  = (Ok ((0 <=? i) && (i <? Z.of_nat (length (reverse self h)))), h).
Proof. reflexivity. Qed.

(** C10. A call [get_or_create(y)] leaves every answer of [to_external] and
    of [to_internal] as it was; the size stays as it is when [y] was
    registered and grows by one when it was not; and [contains_internal(i)]
    is true exactly for [0 <= i < size()]. *)
Theorem get_or_create_preserves (h0 : heap) (ops : list op) (y : string) :
  (forall i s,
      eval (client ops (fun self => to_external self i)) h0 = Ok s ->
      eval (client ops (fun self =>
              run get_or_create self y in to_external self i)) h0 = Ok s)
  /\ (forall x i,
      eval (client ops (fun self => to_internal self x)) h0 = Ok i ->
      eval (client ops (fun self =>
              run get_or_create self y in to_internal self x)) h0 = Ok i)
  /\ (exists n n',
      eval (client ops (fun self =>
              let* known := contains_external self y in
              let* n := size self in
              run get_or_create self y in
              let* n' := size self in
              ret (known, n, n'))) h0
      = Ok (bool_decide (y ∈ created ops), n, n')
      /\ n' = if bool_decide (y ∈ created ops) then n else n + 1)
  /\ (forall i, exists n b,
      eval (client ops size) h0 = Ok n
      /\ eval (client ops (fun self => contains_internal self i)) h0 = Ok b
      /\ (b = true <-> 0 <= i < n)).
Proof.
  destruct (client_run h0 ops) as (self & h & Hinv & Hdom & Hk).
  unfold eval. rewrite !Hk.
  destruct (get_or_create_run self h y Hinv)
    as (j & h' & Hg & Hinv' & Hy & Hev & Hnew).
  split; [| split; [| split]].
  - intros i s. rewrite Hk, to_external_run. simpl. intros Hs.
    rewrite Hk, (bind_ok _ _ _ _ _ Hg).
    destruct (i <? 0) eqn:Hi; [discriminate |].
    destruct (reverse self h !! Z.to_nat i) as [s' |] eqn:Hr; [| discriminate].
    injection Hs as ->.
    pose proof (inv_rev_fwd _ _ Hinv _ _ Hr) as Hf.
    rewrite Z2Nat.id in Hf by lia.
    rewrite (to_external_of_forward _ _ _ _ Hinv' (ev_forward _ _ _ Hev _ _ Hf)).
    reflexivity.
  - intros x i. rewrite Hk, to_internal_run. simpl. intros Hs.
    rewrite Hk, (bind_ok _ _ _ _ _ Hg), to_internal_run.
    destruct (forward self h !! x) as [i' |] eqn:Hf; [| discriminate].
    injection Hs as ->.
    rewrite (ev_forward _ _ _ Hev _ _ Hf). reflexivity.
  - rewrite (bind_ok _ _ _ _ _ (contains_external_run self h y)).
    rewrite (bind_ok _ _ _ _ _ (size_run self h)), (bind_ok _ _ _ _ _ Hg).
    rewrite (bind_ok _ _ _ _ _ (size_run self h')).
    do 2 eexists. unfold ret. simpl.
    assert (Hiff : is_Some (forward self h !! y) <-> y ∈ created ops).
    { rewrite <- elem_of_dom, Hdom, elem_of_list_to_set. reflexivity. }
    rewrite (bool_decide_ext _ _ Hiff). split; [reflexivity |].
    destruct (forward self h !! y) as [k |] eqn:Hf.
    + rewrite bool_decide_eq_true_2 by (apply Hiff; eauto).
      rewrite (get_or_create_hit self h y k Hf) in Hg.
      injection Hg as _ <-. reflexivity.
    + rewrite bool_decide_eq_false_2
        by (intros Hin; apply Hiff in Hin; destruct Hin; discriminate).
      pose proof (get_or_create_miss_reverse self h y
                    (inv_list_alloc _ _ Hinv) Hf) as Er.
      unfold exec in Er. rewrite Hg in Er. simpl in Er.
      rewrite Er, length_app. simpl. lia.
  - intros i. do 2 eexists. rewrite Hk, size_run, contains_internal_run. simpl.
    split; [reflexivity | split; [reflexivity |]].
    rewrite andb_true_iff, Z.leb_le, Z.ltb_lt. reflexivity.
Qed.

Lemma get_or_create_preserves_witness :
  eval (client test_simple_ascii (fun self => to_external self 0)) empty_heap
  = Ok "NewYork"
  /\ eval (client test_simple_ascii (fun self =>
             run get_or_create self "Boston" in
             to_external self 0)) empty_heap = Ok "NewYork"
  /\ eval (client test_simple_ascii (fun self =>
             to_internal self "LosAngeles")) empty_heap = Ok 1
  /\ eval (client test_simple_ascii (fun self =>
             run get_or_create self "Boston" in
             to_internal self "LosAngeles")) empty_heap = Ok 1.
Proof.
  assert (Hext : eval (client test_simple_ascii (fun self =>
                         to_external self 0)) empty_heap = Ok "NewYork")
    by (vm_compute; reflexivity).
  assert (Hint : eval (client test_simple_ascii (fun self =>
                         to_internal self "LosAngeles")) empty_heap = Ok 1)
    by (vm_compute; reflexivity).
  destruct (get_or_create_preserves empty_heap test_simple_ascii "Boston")
    as (Hkeep_ext & Hkeep_int & _ & _).
  split; [exact Hext | split; [exact (Hkeep_ext 0 "NewYork" Hext) |]].
  split; [exact Hint | exact (Hkeep_int "LosAngeles" 1 Hint)].
Defined.

Lemma agree_reverse self h1 h2 :
  agree self h1 h2 -> reverse self h1 = reverse self h2.
Proof. intros [_ El _]. apply list_at_same. assumption. Qed.

Lemma agree_refl self h : agree self h h.
Proof. constructor; reflexivity. Qed.

Lemma get_or_create_miss_lists self h x :
  forward self h !! x = None ->
  lists (exec (get_or_create self x) h)
  = alter (fun xs => xs ++ [x]) (_int_to_str self) (lists h).
Proof.
  unfold forward. intros Hx.
  unfold exec, get_or_create, bind, dict_contains, dict_getitem.
  rewrite Hx. rewrite bool_decide_eq_false_2 by (intros [? ?]; discriminate).
  reflexivity.
Qed.

Lemma get_or_create_agree self h1 h2 x :
  mapper_inv self h1 ->
  agree self h1 h2 ->
  eval (get_or_create self x) h1 = eval (get_or_create self x) h2
  /\ agree self (exec (get_or_create self x) h1) (exec (get_or_create self x) h2).
Proof.
  intros Hinv Hag. pose proof (agree_reverse _ _ _ Hag) as Er.
  destruct Hag as [Ef El Ed].
  destruct (forward self h1 !! x) as [i |] eqn:Hx.
  - pose proof Hx as Hx2. rewrite Ef in Hx2.
    unfold eval, exec.
    rewrite (get_or_create_hit _ _ _ _ Hx), (get_or_create_hit _ _ _ _ Hx2).
    split; [reflexivity | constructor; assumption].
  - pose proof Hx as Hx2. rewrite Ef in Hx2.
    rewrite (get_or_create_miss _ _ _ Hx), (get_or_create_miss _ _ _ Hx2), Er.
    split; [reflexivity |]. constructor.
    + rewrite (get_or_create_miss_forward _ _ _ (inv_dict_alloc _ _ Hinv) Hx).
      rewrite get_or_create_miss_forward; [| | assumption].
      * rewrite Ef, Er. reflexivity.
      * rewrite <- Ed. apply (inv_dict_alloc _ _ Hinv).
    + rewrite (get_or_create_miss_lists _ _ _ Hx),
        (get_or_create_miss_lists _ _ _ Hx2), El.
      reflexivity.
    + destruct (get_or_create_lengths self h1 x) as [-> _].
      destruct (get_or_create_lengths self h2 x) as [-> _].
      assumption.
Qed.

Lemma call_agree self o h1 h2 :
  mapper_inv self h1 ->
  agree self h1 h2 ->
  eval (call self o) h1 = eval (call self o) h2
  /\ agree self (exec (call self o) h1) (exec (call self o) h2).
Proof.
  intros Hinv Hag. pose proof (agree_reverse _ _ _ Hag) as Er.
  destruct o as [x | x | i | x | i | |]; simpl call;
    rewrite !exec_bind_ret, !eval_bind_ret.
  - destruct (get_or_create_agree self h1 h2 x Hinv Hag) as [-> Hag'].
    split; [reflexivity | assumption].
  - rewrite !to_internal_exec. unfold eval.
    rewrite !to_internal_run, (ag_forward _ _ _ Hag).
    split; [reflexivity | assumption].
  - rewrite !to_external_exec. unfold eval.
    rewrite !to_external_run, Er.
    split; [reflexivity | assumption].
  - rewrite !contains_external_exec. unfold eval.
    rewrite !contains_external_run, (ag_forward _ _ _ Hag).
    split; [reflexivity | assumption].
  - rewrite !contains_internal_exec. unfold eval.
    rewrite !contains_internal_run, Er.
    split; [reflexivity | assumption].
  - rewrite !size_exec. unfold eval. rewrite !size_run, Er.
    split; [reflexivity | assumption].
  - unfold eval, exec. rewrite !export_mappings_run. simpl.
    destruct Hag as [Ef El Ed]. rewrite Ed.
    split; [reflexivity |]. constructor; simpl.
    + transitivity (forward self h1).
      * apply (dict_at_app h1 _ (forward self h1)); [reflexivity |].
        apply (inv_dict_alloc _ _ Hinv).
      * rewrite Ef. symmetry.
        apply (dict_at_app h2 _ (forward self h2)); [reflexivity |].
        rewrite <- Ed. apply (inv_dict_alloc _ _ Hinv).
    + assumption.
    + rewrite !length_app, Ed. reflexivity.
Qed.

Lemma calls_agree self ops : forall h1 h2,
  mapper_inv self h1 ->
  agree self h1 h2 ->
  eval (calls self ops) h1 = eval (calls self ops) h2.
Proof.
  induction ops as [| o ops IH]; intros h1 h2 Hinv Hag; [reflexivity |].
  destruct (call_agree self o h1 h2 Hinv Hag) as [Ev Hag'].
  destruct (call_step self h1 o Hinv) as (Hinv' & _ & _).
  specialize (IH _ _ Hinv' Hag').
  simpl calls. unfold eval at 1 2. unfold bind at 1 3.
  rewrite !attempt_run, Ev. unfold bind, ret.
  unfold eval in IH.
  destruct (calls self ops (exec (call self o) h1)) as [[rs1 | e1] k1];
    destruct (calls self ops (exec (call self o) h2)) as [[rs2 | e2] k2];
    simpl in *; congruence.
Qed.

(** C5. [export_mappings] returns a new [dict] with the items that the
    forward mapping has when it is called, the strings registered so far,
    and it leaves the forward mapping as it is. Whatever its holder does to
    it afterwards, every later call on the mapper answers as it would have;
    and whatever calls are made on the mapper afterwards, the returned
    [dict] keeps its items. *)
Theorem export_mappings_isolated
    (h0 : heap) (ops ops' : list op) (f : gmap string Z -> gmap string Z) :
  (exists d,
      eval (client ops (fun self =>
              let* before := dict_items (_str_to_int self) in
              let* r := export_mappings self in
              let* exported := dict_items r in
              let* own := dict_items (_str_to_int self) in
              ret (before, exported, own,
                   bool_decide (r = _str_to_int self)))) h0
      = Ok (d, d, d, false)
      /\ dom d = list_to_set (created ops))
  /\ eval (client ops (fun self =>
             let* r := export_mappings self in
             run dict_mutate r f in
             calls self ops')) h0
     = eval (client ops (fun self =>
               let* r := export_mappings self in
               calls self ops')) h0
  /\ (exists d,
      eval (client ops (fun self =>
              let* r := export_mappings self in
              let* before := dict_items r in
              run calls self ops' in
              let* after := dict_items r in
              ret (before, after))) h0 = Ok (d, d)).
Proof.
  destruct (client_run h0 ops) as (self & h & Hinv & Hdom & Hk).
  unfold eval. rewrite !Hk.
  set (h1 := {| dicts := dicts h ++ [forward self h]; lists := lists h |}).
  destruct (export_mappings_step self h Hinv) as (Hinv1 & _ & Ef).
  unfold exec in Hinv1, Ef. rewrite export_mappings_run in Hinv1, Ef.
  simpl in Hinv1, Ef. fold h1 in Hinv1, Ef.
  pose proof (inv_dict_alloc _ _ Hinv) as Halloc.
  assert (Hnew : dict_at h1 (length (dicts h)) = forward self h)
    by (apply (dict_at_app_new h); reflexivity).
  split; [| split].
  - exists (forward self h). split; [| exact Hdom].
    unfold bind at 1. unfold dict_items at 1.
    rewrite (bind_ok _ _ _ _ _ (export_mappings_run self h)). fold h1.
    unfold bind, dict_items, ret. simpl.
    rewrite Hnew. fold (forward self h1). rewrite Ef.
    fold (forward self h).
    rewrite bool_decide_eq_false_2 by lia. reflexivity.
  - rewrite !(bind_ok _ _ _ _ _ (export_mappings_run self h)). fold h1.
    unfold bind at 1. unfold dict_mutate at 1.
    symmetry. apply (calls_agree self ops' h1); [assumption |].
    constructor; simpl; [| reflexivity | rewrite length_alter; reflexivity].
    symmetry. apply (dict_at_alter_ne h1 _ f (length (dicts h))).
    + reflexivity.
    + lia.
  - rewrite !(bind_ok _ _ _ _ _ (export_mappings_run self h)). fold h1.
    destruct (calls_run self ops' h1 Hinv1) as (rs & h2 & Hrun & _ & _ & Hev & _).
    exists (forward self h). unfold bind at 1. unfold dict_items at 1.
    rewrite (bind_ok _ _ _ _ _ Hrun). unfold bind, dict_items, ret. simpl.
    rewrite (ev_frame _ _ _ Hev), Hnew; [reflexivity | | lia].
    subst h1. simpl. rewrite length_app. simpl. lia.
Qed.

(** ** The binary search *)

Lemma strictly_ascending_lookup (ids : list Z) :
  strictly_ascending ids = true ->
  forall (i j : nat) (a b : Z),
    (i < j)%nat -> ids !! i = Some a -> ids !! j = Some b -> a < b.
Proof.
  induction ids as [| x ids IH]; intros Hasc i j a b Hij Hi Hj.
  - destruct i; discriminate.
  - assert (Htail : strictly_ascending ids = true).
    { destruct ids as [| y ids']; [reflexivity |].
      simpl in Hasc. apply andb_true_iff in Hasc. apply Hasc. }
    assert (Hhead : forall (k : nat) (c : Z), ids !! k = Some c -> x < c).
    { intros k. induction k as [| k IHk]; intros c Hk.
      - destruct ids as [| y ids']; [discriminate |].
        simpl in Hasc, Hk. apply andb_true_iff in Hasc.
        destruct Hasc as [Hxy _]. apply Z.ltb_lt in Hxy. congruence.
      - destruct (lookup_lt_is_Some_2 ids k) as [c' Hc'];
          [apply lookup_lt_Some in Hk; lia |].
        specialize (IHk _ Hc').
        pose proof (IH Htail k (S k) c' c ltac:(lia) Hc' Hk). lia. }
    destruct j as [| j]; [lia |]. simpl in Hj.
    destruct i as [| i]; simpl in Hi.
    + injection Hi as <-. eapply Hhead. eassumption.
    + apply (IH Htail i j); [lia | assumption | assumption].
Qed.

Lemma ExternalIds_Some mapping j v :
  ExternalIds mapping j = Some v
  <-> 0 <= j /\ external_ids mapping !! Z.to_nat j = Some v.
Proof.
  unfold ExternalIds. destruct (j <? 0) eqn:Hj.
  - split; [discriminate | lia].
  - split; [intros H; split; [lia | assumption] | intros [_ H]; assumption].
Qed.

Lemma mid_bounds (left right : Z) :
  left <= right -> left <= (left + right) / 2 <= right.
Proof.
  intros H.
  split; [apply Z.div_le_lower_bound | apply Z.div_le_upper_bound]; lia.
Qed.

(** The loop keeps every position of [ext_id] between [left] and [right];
    it reads inside the sequence only, and it ends with such a position or,
    if there is none, with [-1]. *)
Lemma find_internal_id_loop_spec mapping ext_id left right :
  strictly_ascending (external_ids mapping) = true ->
  0 <= left ->
  right < ExternalIdsLength mapping ->
  (forall p, ExternalIds mapping p = Some ext_id -> left <= p <= right) ->
  exists r,
    find_internal_id_loop mapping ext_id left right = Some r
    /\ (ExternalIds mapping r = Some ext_id
        \/ (r = -1 /\ forall p, ExternalIds mapping p <> Some ext_id)).
Proof.
  funelim (find_internal_id_loop mapping ext_id left right).
  all: intros Hasc Hl Hr Hwin.
  - exists (-1). split; [reflexivity |]. right. split; [reflexivity |].
    intros p Hp. specialize (Hwin p Hp). lia.
  - exfalso. pose proof (mid_bounds l r Hle) as Hmid.
    unfold ExternalIds, ExternalIdsLength in *.
    destruct ((l + r) / 2 <? 0) eqn:E; [lia |].
    match goal with H : _ !! _ = None |- _ => apply lookup_ge_None in H end.
    lia.
  - eexists. split; [reflexivity |]. left. subst. assumption.
  - pose proof (mid_bounds l r Hle) as Hmid.
    match goal with IH : _ -> _ -> _ -> _ -> exists _, _ |- _ =>
      apply IH; [assumption | lia | assumption |]; clear IH end.
    intros p Hp. specialize (Hwin p Hp).
    destruct (decide (p <= (l + r) / 2)) as [Hpm |]; [exfalso | lia].
    match goal with H : ExternalIds _ ((l + r) / 2) = Some _ |- _ =>
      apply ExternalIds_Some in H; destruct H as [_ Hm] end.
    apply ExternalIds_Some in Hp. destruct Hp as [_ Hp].
    destruct (decide (p = (l + r) / 2)) as [-> | Hne]; [congruence |].
    pose proof (strictly_ascending_lookup _ Hasc (Z.to_nat p)
                  (Z.to_nat ((l + r) / 2)) _ _ ltac:(lia) Hp Hm).
    lia.
  - pose proof (mid_bounds l r Hle) as Hmid.
    match goal with IH : _ -> _ -> _ -> _ -> exists _, _ |- _ =>
      apply IH; [assumption | assumption | lia |]; clear IH end.
    intros p Hp. specialize (Hwin p Hp).
    destruct (decide ((l + r) / 2 <= p)) as [Hpm |]; [exfalso | lia].
    match goal with H : ExternalIds _ ((l + r) / 2) = Some _ |- _ =>
      apply ExternalIds_Some in H; destruct H as [_ Hm] end.
    apply ExternalIds_Some in Hp. destruct Hp as [_ Hp].
    destruct (decide (p = (l + r) / 2)) as [-> | Hne]; [congruence |].
    pose proof (strictly_ascending_lookup _ Hasc (Z.to_nat ((l + r) / 2))
                  (Z.to_nat p) _ _ ltac:(lia) Hm Hp).
    lia.
Qed.

(** C6. On a strictly ascending sequence [find_internal_id] ends with a
    result, which is the position of the id if the id occurs and the
    sentinel [-1], which is no position, exactly if it does not. *)
Theorem find_internal_id_sorted (mapping : IdMapping) (ext_id : Z) :
  strictly_ascending (external_ids mapping) = true ->
  exists r,
    find_internal_id mapping ext_id = Some r
    /\ (forall p : nat,
          external_ids mapping !! p = Some ext_id -> r = Z.of_nat p)
    /\ (ext_id ∉ external_ids mapping <-> r = -1).
Proof.
  intros Hasc.
  destruct (find_internal_id_loop_spec mapping ext_id 0
              (ExternalIdsLength mapping - 1) Hasc)
    as (r & Hrun & Hres); [lia | lia | |].
  { intros p Hp. apply ExternalIds_Some in Hp. destruct Hp as [H0 Hp].
    apply lookup_lt_Some in Hp. unfold ExternalIdsLength. lia. }
  exists r. split; [exact Hrun |].
  destruct Hres as [Hfound | [-> Habsent]].
  - apply ExternalIds_Some in Hfound. destruct Hfound as [H0 Hr].
    split.
    + intros p Hp.
      destruct (Nat.lt_total (Z.to_nat r) p) as [Hlt | [Heq | Hgt]].
      * pose proof (strictly_ascending_lookup _ Hasc _ _ _ _ Hlt Hr Hp). lia.
      * lia.
      * pose proof (strictly_ascending_lookup _ Hasc _ _ _ _ Hgt Hp Hr). lia.
    + split; [| lia]. intros Hnot. exfalso. apply Hnot.
      eapply list_elem_of_lookup_2. eassumption.
  - assert (Hnot : ext_id ∉ external_ids mapping).
    { intros Hin. apply list_elem_of_lookup_1 in Hin. destruct Hin as [p Hp].
      apply (Habsent (Z.of_nat p)). apply ExternalIds_Some.
      rewrite Nat2Z.id. split; [lia | assumption]. }
    split; [| split; auto].
    intros p Hp. exfalso. apply Hnot.
    eapply list_elem_of_lookup_2. eassumption.
Qed.

(** The two searches of the test: [300] is at position 2 and [250] is
    absent. *)
Lemma find_internal_id_test :
  find_internal_id test_mapping 300 = Some 2
  /\ find_internal_id test_mapping 250 = Some (-1).
Proof.
  split.
  - destruct (find_internal_id_sorted test_mapping 300 eq_refl)
      as (r & Hr & Hpos & _).
    rewrite Hr. f_equal. apply (Hpos 2%nat eq_refl).
  - destruct (find_internal_id_sorted test_mapping 250 eq_refl)
      as (r & Hr & _ & Habs).
    rewrite Hr. f_equal. apply Habs.
    apply (bool_decide_unpack _). vm_compute. exact I.
Defined.

(** ** The CSR traversal *)

(** C7. In the topology of the test, node 0 has the edge range [(0, 2)]
    with the targets [1] and [2], and node 3, which has no outgoing edge,
    has the range [(4, 4)]: both reads succeed and the range is empty. *)
Theorem csr_neighbors_test :
  neighbors test_topology 0 = Some (0, 2)
  /\ neighbor_targets test_topology 0 2 = Some [1; 2]
  /\ neighbors test_topology 3 = Some (4, 4)
  /\ neighbor_targets test_topology 4 4 = Some []
  /\ length (range 4 4) = 0%nat.
Proof. repeat split; reflexivity. Qed.

(** A node inside the topology whose two offsets are equal has an empty
    range of edges, whatever the topology. *)
Lemma neighbors_no_edges (topo : GraphTopology) (node s : Z) :
  FirstEdge topo node = Some s ->
  FirstEdge topo (node + 1) = Some s ->
  neighbors topo node = Some (s, s) /\ neighbor_targets topo s s = Some [].
Proof.
  intros H1 H2. unfold neighbors, neighbor_targets, range.
  rewrite H1, H2, Z.sub_diag. split; reflexivity.
Qed.

(** ** The unit tests of the mapper, run on the model *)

Example test_unicode_strings :
  eval (client [] (fun self =>
          let* id_tokyo := get_or_create self "Tōkyō_東京" in
          to_external self id_tokyo)) empty_heap = Ok "Tōkyō_東京".
Proof. vm_compute. reflexivity. Qed.

Example test_long_string :
  eval (client [] (fun self =>
          let* id_long := get_or_create self (string_repeat "A" 2000) in
          to_external self id_long)) empty_heap
  = Ok (string_repeat "A" 2000).
Proof. vm_compute. reflexivity. Qed.

Example test_consistency :
  eval (client [] (fun self =>
          let* id1 := get_or_create self "X" in
          let* id2 := get_or_create self "X" in
          let* n := size self in
          ret (id1, id2, n))) empty_heap = Ok (0, 0, 1).
Proof. vm_compute. reflexivity. Qed.

Example test_error_handling :
  eval (client [op_get_or_create "Existing"] (fun self =>
          calls self [op_to_internal "NonExistent";
                      op_to_external 1;
                      op_to_external (-1)])) empty_heap
  = Ok [Raise KeyError; Raise IndexError; Raise IndexError].
Proof. vm_compute. reflexivity. Qed.

Example test_membership_checks :
  eval (client [] (fun self =>
          let* id_a := get_or_create self "A" in
          calls self [op_contains_external "A";
                      op_contains_external "Z";
                      op_contains_internal id_a;
                      op_contains_internal 9999])) empty_heap
  = Ok [Ok (VBool true); Ok (VBool false); Ok (VBool true); Ok (VBool false)].
Proof. vm_compute. reflexivity. Qed.

(** Indexing the list directly with [-1] gives the last string, which is
    what [to_external] guards against. *)
Example list_getitem_wraps :
  eval (client test_simple_ascii (fun self =>
          list_getitem (_int_to_str self) (-1))) empty_heap = Ok "LosAngeles".
Proof. vm_compute. reflexivity. Qed.

(** ** More about the mapper: order of the ids *)

Lemma elem_of_reverse_forward self h x :
  mapper_inv self h ->
  x ∈ reverse self h <-> is_Some (forward self h !! x).
Proof.
  intros Hinv. split.
  - intros Hin. apply list_elem_of_lookup_1 in Hin. destruct Hin as [n Hn].
    rewrite (inv_rev_fwd _ _ Hinv _ _ Hn). eauto.
  - intros [i Hi]. destruct (inv_fwd_rev _ _ Hinv _ _ Hi) as [_ Hr].
    eapply list_elem_of_lookup_2. eassumption.
Qed.

Lemma get_or_create_reverse self h x :
  mapper_inv self h ->
  reverse self (exec (get_or_create self x) h) = register (reverse self h) x.
Proof.
  intros Hinv. unfold register.
  destruct (forward self h !! x) as [i |] eqn:Hx.
  - unfold exec. rewrite (get_or_create_hit self h x i Hx). simpl.
    rewrite decide_True; [reflexivity |].
    apply (elem_of_reverse_forward self h x Hinv). eauto.
  - rewrite (get_or_create_miss_reverse self h x (inv_list_alloc _ _ Hinv) Hx).
    rewrite decide_False; [reflexivity |].
    intros Hin. apply (elem_of_reverse_forward self h x Hinv) in Hin.
    rewrite Hx in Hin. destruct Hin; discriminate.
Qed.

Lemma call_reverse self h o :
  mapper_inv self h ->
  reverse self (exec (call self o) h) = foldl register (reverse self h) (created [o]).
Proof.
  intros Hinv. destruct o as [x | x | i | x | i | |]; simpl call;
    rewrite exec_bind_ret; simpl created; simpl foldl.
  - apply get_or_create_reverse. assumption.
  - rewrite to_internal_exec. reflexivity.
  - rewrite to_external_exec. reflexivity.
  - reflexivity.
  - reflexivity.
  - reflexivity.
  - reflexivity.
Qed.

Lemma calls_exec_cons self o ops h :
  exec (calls self (o :: ops)) h = exec (calls self ops) (exec (call self o) h).
Proof.
  remember (exec (call self o) h) as h1 eqn:Eh1.
  unfold exec. simpl calls. unfold bind at 1. rewrite attempt_run, <- Eh1.
  unfold bind, ret.
  destruct (calls self ops h1) as [[rs | e] h']; reflexivity.
Qed.

Lemma calls_reverse self ops : forall h,
  mapper_inv self h ->
  reverse self (exec (calls self ops) h)
  = foldl register (reverse self h) (created ops).
Proof.
  induction ops as [| o ops IH]; intros h Hinv; [reflexivity |].
  rewrite calls_exec_cons.
  destruct (call_step self h o Hinv) as (Hinv' & _ & _).
  rewrite (IH _ Hinv'), (call_reverse self h o Hinv).
  destruct o; reflexivity.
Qed.

Lemma client_run_reverse h0 ops :
  exists self h,
    mapper_inv self h
    /\ reverse self h = first_seen (created ops)
    /\ forall A (k : IDMapper -> M A), client ops k h0 = k self h.
Proof.
  destruct (init_run h0) as (self & h1 & Hinit & Hinv1 & _ & Er & _).
  destruct (calls_run self ops h1 Hinv1) as (rs & h & Hrun & _ & Hinv & _ & _).
  exists self, h. split; [assumption | split].
  - pose proof (calls_reverse self ops h1 Hinv1) as Hrev.
    unfold exec in Hrev. rewrite Hrun in Hrev. simpl in Hrev.
    rewrite Hrev, Er. reflexivity.
  - intros A k. unfold client.
    rewrite (bind_ok _ _ _ _ _ Hinit), (bind_ok _ _ _ _ _ Hrun). reflexivity.
Qed.

(** X1. The ids follow the order of registration: after any calls on a new
    mapper, [to_external(n)] is the [n]-th of the distinct strings given to
    [get_or_create], counted from 0 in the order in which they first came,
    and it raises [IndexError] when there are not that many. *)
Theorem to_external_first_seen (h0 : heap) (ops : list op) (n : nat) :
  eval (client ops (fun self => attempt (to_external self (Z.of_nat n)))) h0
  = Ok (match first_seen (created ops) !! n with
        | Some s => Ok s
        | None => Raise IndexError
        end).
Proof.
  destruct (client_run_reverse h0 ops) as (self & h & Hinv & Hrev & Hk).
  unfold eval. rewrite Hk, attempt_run. simpl. unfold eval.
  rewrite to_external_run, Hrev, Nat2Z.id. simpl.
  destruct (Z.of_nat n <? 0) eqn:E; [apply Z.ltb_lt in E; lia | reflexivity].
Qed.

(** X2. Two [get_or_create] calls return the same id only for the same
    string: different strings never share an id. *)
Theorem get_or_create_injective (h0 : heap) (ops : list op) (x y : string) :
  exists a b,
    eval (client ops (fun self =>
            let* a := get_or_create self x in
            let* b := get_or_create self y in
            ret (a, b))) h0 = Ok (a, b)
    /\ (a = b <-> x = y).
Proof.
  destruct (client_run h0 ops) as (self & h & Hinv & _ & Hk).
  unfold eval. rewrite Hk.
  destruct (get_or_create_run self h x Hinv) as (a & h1 & Hg1 & Hinv1 & Hx & _).
  destruct (get_or_create_run self h1 y Hinv1)
    as (b & h2 & Hg2 & Hinv2 & Hy & Hev & _).
  exists a, b.
  rewrite (bind_ok _ _ _ _ _ Hg1), (bind_ok _ _ _ _ _ Hg2).
  split; [reflexivity |].
  pose proof (ev_forward _ _ _ Hev _ _ Hx) as Hx2.
  split.
  - intros ->.
    destruct (inv_fwd_rev _ _ Hinv2 _ _ Hx2) as [_ Hrx].
    destruct (inv_fwd_rev _ _ Hinv2 _ _ Hy) as [_ Hry].
    congruence.
  - intros ->. congruence.
Qed.

(** ** Registering a list of strings *)

Lemma get_or_create_all_run self strings : forall h,
  mapper_inv self h ->
  exists ids h',
    get_or_create_all self strings h = (Ok ids, h')
    /\ mapper_inv self h'
    /\ evolves self h h'
    /\ Forall2 (fun s id_val => forward self h' !! s = Some id_val) strings ids.
Proof.
  induction strings as [| s rest IH]; intros h Hinv.
  - exists [], h. simpl.
    split; [reflexivity | split; [assumption | split]].
    + apply evolves_refl.
    + constructor.
  - destruct (get_or_create_run self h s Hinv)
      as (i & h1 & Hg & Hinv1 & Hs & Hev1 & _).
    destruct (IH h1 Hinv1) as (ids & h' & Hrun & Hinv' & Hev' & Hall).
    exists (i :: ids), h'. simpl get_or_create_all.
    rewrite (bind_ok _ _ _ _ _ Hg), (bind_ok _ _ _ _ _ Hrun).
    split; [reflexivity | split; [assumption | split]].
    + eapply evolves_trans; eassumption.
    + constructor; [| assumption].
      apply (ev_forward _ _ _ Hev'). assumption.
Qed.

Lemma to_external_all_run self h strings ids :
  mapper_inv self h ->
  Forall2 (fun s id_val => forward self h !! s = Some id_val) strings ids ->
  to_external_all self ids h = (Ok strings, h).
Proof.
  intros Hinv Hall. induction Hall as [| s i strings ids Hs Hall IH].
  - reflexivity.
  - simpl to_external_all.
    rewrite (bind_ok _ _ _ _ _ (to_external_of_forward self h s i Hinv Hs)).
    rewrite (bind_ok _ _ _ _ _ IH). reflexivity.
Qed.

(** X3. Registering a list of strings and looking the returned ids up
    again gives the list back, whatever the strings are and whatever was
    registered before. *)
Theorem get_or_create_all_round_trip
    (h0 : heap) (ops : list op) (strings : list string) :
  eval (client ops (fun self =>
          let* ids := get_or_create_all self strings in
          to_external_all self ids)) h0 = Ok strings.
Proof.
  destruct (client_run h0 ops) as (self & h & Hinv & _ & Hk).
  unfold eval. rewrite Hk.
  destruct (get_or_create_all_run self strings h Hinv)
    as (ids & h' & Hrun & Hinv' & _ & Hall).
  rewrite (bind_ok _ _ _ _ _ Hrun).
  rewrite (to_external_all_run self h' strings ids Hinv' Hall). reflexivity.
Qed.

(** X4. The ids of a list of pairwise different strings are pairwise
    different and as many as the strings, the check that
    [test_hash_collisions] makes with [len(set(ids))]. *)
Theorem get_or_create_all_unique
    (h0 : heap) (ops : list op) (strings : list string) :
  NoDup strings ->
  exists ids,
    eval (client ops (fun self => get_or_create_all self strings)) h0 = Ok ids
    /\ NoDup ids
    /\ length ids = length strings.
Proof.
  intros Hnd.
  destruct (client_run h0 ops) as (self & h & Hinv & _ & Hk).
  unfold eval. rewrite Hk.
  destruct (get_or_create_all_run self strings h Hinv)
    as (ids & h' & Hrun & Hinv' & _ & Hall).
  exists ids. rewrite Hrun. split; [reflexivity |].
  split; [| symmetry; eapply Forall2_length; eassumption].
  apply NoDup_alt. intros i j a Hi Hj.
  destruct (Forall2_lookup_r _ _ _ _ _ Hall Hi) as (s & Hsi & Hfs).
  destruct (Forall2_lookup_r _ _ _ _ _ Hall Hj) as (t & Htj & Hft).
  destruct (inv_fwd_rev _ _ Hinv' _ _ Hfs) as [_ Hrs].
  destruct (inv_fwd_rev _ _ Hinv' _ _ Hft) as [_ Hrt].
  assert (s = t) by congruence. subst t.
  eapply NoDup_lookup; eassumption.
Qed.

Lemma get_or_create_all_unique_witness :
  NoDup ["NewYork"; "LosAngeles"; "Boston"]
  /\ exists ids,
      eval (client test_simple_ascii (fun self =>
              get_or_create_all self ["NewYork"; "LosAngeles"; "Boston"]))
        empty_heap = Ok ids
      /\ NoDup ids
      /\ length ids = 3%nat.
Proof.
  assert (Hnd : NoDup ["NewYork"; "LosAngeles"; "Boston"])
    by (apply (bool_decide_unpack _); vm_compute; exact I).
  split; [exact Hnd |].
  exact (get_or_create_all_unique empty_heap test_simple_ascii _ Hnd).
Defined.

(** ** Membership tests and lookups *)

(** X5. The membership tests tell whether the lookups succeed:
    [contains_external(x)] is true exactly when [to_internal(x)] returns,
    and [contains_internal(i)] exactly when [to_external(i)] returns. *)
Theorem contains_guards_lookup (h0 : heap) (ops : list op) (x : string) (i : Z) :
  exists b r c t,
    eval (client ops (fun self =>
            let* b := contains_external self x in
            let* r := attempt (to_internal self x) in
            let* c := contains_internal self i in
            let* t := attempt (to_external self i) in
            ret (b, r, c, t))) h0 = Ok (b, r, c, t)
    /\ (b = true <-> exists j, r = Ok j)
    /\ (c = true <-> exists s, t = Ok s).
Proof.
  destruct (client_run h0 ops) as (self & h & Hinv & _ & Hk).
  unfold eval. rewrite Hk.
  rewrite (bind_ok _ _ _ _ _ (contains_external_run self h x)).
  rewrite (bind_ok _ _ _ _ _ (attempt_run _ h)), to_internal_exec.
  rewrite (bind_ok _ _ _ _ _ (contains_internal_run self h i)).
  rewrite (bind_ok _ _ _ _ _ (attempt_run _ h)), to_external_exec.
  do 4 eexists. split; [reflexivity |].
  unfold eval. rewrite to_internal_run, to_external_run. simpl. split.
  - destruct (forward self h !! x) as [j |].
    + rewrite bool_decide_eq_true_2 by eauto. split; eauto.
    + rewrite bool_decide_eq_false_2 by (intros [? ?]; discriminate).
      split; [discriminate | intros [j Hj]; discriminate].
  - rewrite andb_true_iff, Z.leb_le, Z.ltb_lt.
    destruct (i <? 0) eqn:Hi.
    + apply Z.ltb_lt in Hi. split; [lia | intros [s Hs]; discriminate].
    + apply Z.ltb_ge in Hi.
      destruct (reverse self h !! Z.to_nat i) as [s |] eqn:Hs.
      * apply lookup_lt_Some in Hs. split; [eauto | lia].
      * apply lookup_ge_None in Hs.
        split; [lia | intros [s Hs']; discriminate].
Qed.

Lemma lookup_call_exec self o h :
  is_lookup o = true -> exec (call self o) h = h.
Proof.
  destruct o; simpl; intros Hl; try discriminate; rewrite exec_bind_ret.
  - apply to_internal_exec.
  - apply to_external_exec.
  - reflexivity.
  - reflexivity.
  - reflexivity.
Qed.

Lemma lookup_calls_run self ops : forall h,
  forallb is_lookup ops = true ->
  exists rs, calls self ops h = (Ok rs, h).
Proof.
  induction ops as [| o ops IH]; intros h Hall.
  - exists []. reflexivity.
  - simpl in Hall. apply andb_true_iff in Hall. destruct Hall as [Ho Hall].
    destruct (IH h Hall) as [rs Hrs].
    exists (eval (call self o) h :: rs).
    simpl calls. unfold bind at 1. rewrite attempt_run.
    rewrite (lookup_call_exec self o h Ho). unfold bind. rewrite Hrs.
    reflexivity.
Qed.

(** X6. Lookups leave no trace: after any number of calls of [to_internal],
    [to_external], [contains_external], [contains_internal] and [size],
    failed ones too, the rest of the program runs as if they had not been
    made. *)
Theorem lookups_leave_no_trace {A}
    (h0 : heap) (ops lookups : list op) (k : IDMapper -> M A) :
  forallb is_lookup lookups = true ->
  client ops (fun self => run calls self lookups in k self) h0
  = client ops k h0.
Proof.
  intros Hall.
  destruct (client_run h0 ops) as (self & h & _ & _ & Hk).
  rewrite !Hk.
  destruct (lookup_calls_run self lookups h Hall) as [rs Hrs].
  rewrite (bind_ok _ _ _ _ _ Hrs). reflexivity.
Qed.

Lemma lookups_leave_no_trace_witness :
  forallb is_lookup [op_to_internal "NonExistent"; op_to_external (-1); op_size]
  = true
  /\ client test_simple_ascii (fun self =>
       run calls self [op_to_internal "NonExistent"; op_to_external (-1); op_size]
       in get_or_create self "Boston") empty_heap
     = client test_simple_ascii (fun self => get_or_create self "Boston")
         empty_heap.
Proof.
  assert (Hall : forallb is_lookup
                   [op_to_internal "NonExistent"; op_to_external (-1); op_size]
                 = true) by reflexivity.
  split; [exact Hall |].
  exact (lookups_leave_no_trace empty_heap test_simple_ascii _
           (fun self => get_or_create self "Boston") Hall).
Defined.

(** ** Two instances *)

Lemma list_at_alter_ne h h' f r r' :
  lists h' = alter f r (lists h) ->
  r <> r' ->
  list_at h' r' = list_at h r'.
Proof.
  intros E Hne. unfold list_at. rewrite E.
  rewrite list_lookup_alter_ne by congruence. reflexivity.
Qed.

Lemma list_at_app h h' l r :
  lists h' = lists h ++ [l] ->
  (r < length (lists h))%nat ->
  list_at h' r = list_at h r.
Proof.
  intros E Hr. unfold list_at. rewrite E.
  rewrite lookup_app_l by assumption. reflexivity.
Qed.

(** A call on one mapper keeps every [list] of the store but the mapper's
    own. *)
Lemma call_lists self o h :
  length (lists (exec (call self o) h)) = length (lists h)
  /\ forall r, r <> _int_to_str self ->
       list_at (exec (call self o) h) r = list_at h r.
Proof.
  destruct o as [x | x | i | x | i | |]; simpl call; rewrite exec_bind_ret.
  - destruct (forward self h !! x) as [j |] eqn:Hx.
    + unfold exec. rewrite (get_or_create_hit self h x j Hx). simpl. auto.
    + pose proof (get_or_create_miss_lists self h x Hx) as El.
      split; [rewrite El, length_alter; reflexivity |].
      intros r Hne. eapply list_at_alter_ne; [exact El | congruence].
  - rewrite to_internal_exec. auto.
  - rewrite to_external_exec. auto.
  - split; reflexivity.
  - split; reflexivity.
  - split; reflexivity.
  - split; reflexivity.
Qed.

Lemma same_view_refl self h :
  (_str_to_int self < length (dicts h))%nat ->
  (_int_to_str self < length (lists h))%nat ->
  same_view self h h.
Proof. intros Hd Hl. constructor; auto. Qed.

Lemma same_view_trans self h1 h2 h3 :
  same_view self h1 h2 -> same_view self h2 h3 -> same_view self h1 h3.
Proof.
  intros [F1 R1 ? ? ? ?] [F2 R2 ? ? ? ?].
  constructor; try assumption; congruence.
Qed.

Lemma same_view_sym self h1 h2 : same_view self h1 h2 -> same_view self h2 h1.
Proof. intros [F R ? ? ? ?]. constructor; auto. Qed.

(** Calls on one mapper leave another one, with other containers, as it
    is. *)
Lemma calls_other_view self other ops : forall h,
  mapper_inv self h ->
  _str_to_int other <> _str_to_int self ->
  _int_to_str other <> _int_to_str self ->
  (_str_to_int other < length (dicts h))%nat ->
  (_int_to_str other < length (lists h))%nat ->
  same_view other h (exec (calls self ops) h).
Proof.
  induction ops as [| o ops IH]; intros h Hinv Hd Hl Had Hal.
  - apply same_view_refl; assumption.
  - rewrite calls_exec_cons.
    destruct (call_step self h o Hinv) as (Hinv' & Hev & _).
    destruct (call_lists self o h) as [Elen Hframe].
    pose proof (ev_dicts _ _ _ Hev) as Hmono.
    assert (Hstep : same_view other h (exec (call self o) h)).
    { constructor; try assumption; try lia.
      - unfold forward. symmetry. apply (ev_frame _ _ _ Hev); assumption.
      - unfold reverse. symmetry. apply Hframe. assumption. }
    eapply same_view_trans; [exact Hstep |].
    apply IH; try assumption; [lia | rewrite Elen; assumption].
Qed.

Lemma call_same_view self o h1 h2 :
  is_export o = false ->
  same_view self h1 h2 ->
  eval (call self o) h1 = eval (call self o) h2
  /\ same_view self (exec (call self o) h1) (exec (call self o) h2).
Proof.
  intros Hne Hsv. pose proof Hsv as [Ef Er Hd1 Hd2 Hl1 Hl2].
  destruct o as [x | x | i | x | i | |]; simpl call; try discriminate;
    rewrite !exec_bind_ret, !eval_bind_ret.
  - destruct (forward self h1 !! x) as [j |] eqn:Hx.
    + pose proof Hx as Hx2. rewrite Ef in Hx2.
      unfold eval, exec.
      rewrite (get_or_create_hit _ _ _ _ Hx), (get_or_create_hit _ _ _ _ Hx2).
      split; [reflexivity | assumption].
    + pose proof Hx as Hx2. rewrite Ef in Hx2.
      rewrite (get_or_create_miss _ _ _ Hx), (get_or_create_miss _ _ _ Hx2), Er.
      split; [reflexivity |].
      destruct (get_or_create_lengths self h1 x) as [Ld1 Ll1].
      destruct (get_or_create_lengths self h2 x) as [Ld2 Ll2].
      constructor; rewrite ?Ld1, ?Ld2, ?Ll1, ?Ll2; try assumption.
      * rewrite (get_or_create_miss_forward _ _ _ Hd1 Hx),
          (get_or_create_miss_forward _ _ _ Hd2 Hx2), Ef, Er.
        reflexivity.
      * rewrite (get_or_create_miss_reverse _ _ _ Hl1 Hx),
          (get_or_create_miss_reverse _ _ _ Hl2 Hx2), Er.
        reflexivity.
  - rewrite !to_internal_exec. unfold eval. rewrite !to_internal_run, Ef.
    split; [reflexivity | assumption].
  - rewrite !to_external_exec. unfold eval. rewrite !to_external_run, Er.
    split; [reflexivity | assumption].
  - rewrite !contains_external_exec. unfold eval.
    rewrite !contains_external_run, Ef.
    split; [reflexivity | assumption].
  - rewrite !contains_internal_exec. unfold eval.
    rewrite !contains_internal_run, Er.
    split; [reflexivity | assumption].
  - rewrite !size_exec. unfold eval. rewrite !size_run, Er.
    split; [reflexivity | assumption].
Qed.

Lemma calls_same_view self ops : forall h1 h2,
  forallb (fun o => negb (is_export o)) ops = true ->
  same_view self h1 h2 ->
  eval (calls self ops) h1 = eval (calls self ops) h2.
Proof.
  induction ops as [| o ops IH]; intros h1 h2 Hall Hsv; [reflexivity |].
  simpl in Hall. apply andb_true_iff in Hall. destruct Hall as [Ho Hall].
  apply negb_true_iff in Ho.
  destruct (call_same_view self o h1 h2 Ho Hsv) as [Ev Hsv'].
  specialize (IH _ _ Hall Hsv').
  simpl calls. unfold eval at 1 2. unfold bind at 1 3.
  rewrite !attempt_run, Ev. unfold bind, ret.
  unfold eval in IH.
  destruct (calls self ops (exec (call self o) h1)) as [[rs1 | e1] k1];
    destruct (calls self ops (exec (call self o) h2)) as [[rs2 | e2] k2];
    simpl in *; congruence.
Qed.

Lemma init_refs h0 self h :
  __init__ h0 = (Ok self, h) ->
  _str_to_int self = length (dicts h0)
  /\ _int_to_str self = length (lists h0)
  /\ dicts h = dicts h0 ++ [∅]
  /\ lists h = lists h0 ++ [[]].
Proof. intros [= <- <-]. repeat split. Qed.

Lemma two_mappers_run h0 :
  exists first second h,
    mapper_inv first h
    /\ mapper_inv second h
    /\ _str_to_int first <> _str_to_int second
    /\ _int_to_str first <> _int_to_str second
    /\ forall A (k : IDMapper -> IDMapper -> M A),
         two_mappers k h0 = k first second h.
Proof.
  destruct (init_run h0) as (first & h1 & Hinit1 & Hinv1 & _).
  destruct (init_run h1) as (second & h2 & Hinit2 & Hinv2 & _).
  destruct (init_refs _ _ _ Hinit2) as (Rd & Rl & Ed & El).
  pose proof (inv_dict_alloc _ _ Hinv1) as Had.
  pose proof (inv_list_alloc _ _ Hinv1) as Hal.
  exists first, second, h2.
  split; [| split; [assumption | split; [lia | split; [lia |]]]].
  - apply (mapper_inv_transfer first h1); try assumption.
    + apply (dict_at_app h1 _ ∅); assumption.
    + apply (list_at_app h1 _ []); assumption.
    + rewrite Ed, length_app. lia.
    + rewrite El, length_app. lia.
  - intros A k. unfold two_mappers.
    rewrite (bind_ok _ _ _ _ _ Hinit1), (bind_ok _ _ _ _ _ Hinit2).
    reflexivity.
Qed.

(** X7. Two instances share nothing: with two mappers in a program, the
    calls made on one change no answer of [get_or_create], [to_internal],
    [to_external], [contains_external], [contains_internal] and [size] on
    the other, in either direction. *)
Theorem instances_isolated (h0 : heap) (others ops : list op) :
  forallb (fun o => negb (is_export o)) ops = true ->
  eval (two_mappers (fun first second =>
          run calls second others in calls first ops)) h0
  = eval (two_mappers (fun first second => calls first ops)) h0
  /\ eval (two_mappers (fun first second =>
             run calls first others in calls second ops)) h0
     = eval (two_mappers (fun first second => calls second ops)) h0.
Proof.
  intros Hall.
  destruct (two_mappers_run h0)
    as (first & second & h & Hinv1 & Hinv2 & Hd & Hl & Hk).
  unfold eval. rewrite !Hk. split.
  - destruct (calls_run second others h Hinv2) as (rs & h' & Hrun & _).
    pose proof (calls_other_view second first others h Hinv2 Hd Hl
                  (inv_dict_alloc _ _ Hinv1) (inv_list_alloc _ _ Hinv1)) as Hsv.
    unfold exec in Hsv. rewrite Hrun in Hsv. simpl in Hsv.
    rewrite (bind_ok _ _ _ _ _ Hrun).
    symmetry. apply (calls_same_view first ops h h' Hall Hsv).
  - destruct (calls_run first others h Hinv1) as (rs & h' & Hrun & _).
    pose proof (calls_other_view first second others h Hinv1
                  (not_eq_sym Hd) (not_eq_sym Hl)
                  (inv_dict_alloc _ _ Hinv2) (inv_list_alloc _ _ Hinv2)) as Hsv.
    unfold exec in Hsv. rewrite Hrun in Hsv. simpl in Hsv.
    rewrite (bind_ok _ _ _ _ _ Hrun).
    symmetry. apply (calls_same_view second ops h h' Hall Hsv).
Qed.

Lemma instances_isolated_witness :
  forallb (fun o => negb (is_export o))
    [op_get_or_create "Boston"; op_to_internal "NewYork"; op_size] = true
  /\ eval (two_mappers (fun first second =>
             run calls second test_simple_ascii in
             calls first
               [op_get_or_create "Boston"; op_to_internal "NewYork"; op_size]))
       empty_heap
     = eval (two_mappers (fun first second =>
               calls first
                 [op_get_or_create "Boston"; op_to_internal "NewYork"; op_size]))
         empty_heap.
Proof.
  assert (Hall : forallb (fun o => negb (is_export o))
                   [op_get_or_create "Boston"; op_to_internal "NewYork"; op_size]
                 = true) by reflexivity.
  split; [exact Hall |].
  exact (proj1 (instances_isolated empty_heap test_simple_ascii _ Hall)).
Defined.

(** ** The binary search without its precondition *)

Lemma ascending_lookup (ids : list Z) :
  ascending ids = true ->
  forall (i j : nat) (a b : Z),
    (i <= j)%nat -> ids !! i = Some a -> ids !! j = Some b -> a <= b.
Proof.
  induction ids as [| x ids IH]; intros Hasc i j a b Hij Hi Hj.
  - destruct i; discriminate.
  - assert (Htail : ascending ids = true).
    { destruct ids as [| y ids']; [reflexivity |].
      simpl in Hasc. apply andb_true_iff in Hasc. apply Hasc. }
    assert (Hhead : forall (k : nat) (c : Z), ids !! k = Some c -> x <= c).
    { intros k c Hk.
      destruct ids as [| y ids']; [destruct k; discriminate |].
      simpl in Hasc. apply andb_true_iff in Hasc.
      destruct Hasc as [Hxy _]. apply Z.leb_le in Hxy.
      pose proof (IH Htail 0%nat k y c ltac:(lia) eq_refl Hk). lia. }
    destruct i as [| i]; simpl in Hi.
    + injection Hi as <-. destruct j as [| j]; simpl in Hj.
      * injection Hj as <-. lia.
      * eapply Hhead. eassumption.
    + destruct j as [| j]; [lia |]. simpl in Hj.
      apply (IH Htail i j); [lia | assumption | assumption].
Qed.

(** Whatever the sequence, the loop reads inside it only and ends with
    [-1] or with a position between [left] and [right] that holds the id. *)
Lemma find_internal_id_loop_sound mapping ext_id left right :
  0 <= left ->
  right < ExternalIdsLength mapping ->
  exists r,
    find_internal_id_loop mapping ext_id left right = Some r
    /\ (r = -1 \/ (left <= r <= right /\ ExternalIds mapping r = Some ext_id)).
Proof.
  funelim (find_internal_id_loop mapping ext_id left right).
  all: intros Hl Hr.
  - exists (-1). split; [reflexivity | left; reflexivity].
  - exfalso. pose proof (mid_bounds l r Hle) as Hmid.
    unfold ExternalIds, ExternalIdsLength in *.
    destruct ((l + r) / 2 <? 0) eqn:E; [lia |].
    match goal with H : _ !! _ = None |- _ => apply lookup_ge_None in H end.
    lia.
  - pose proof (mid_bounds l r Hle) as Hmid.
    eexists. split; [reflexivity |]. right. subst. split; [lia | assumption].
  - pose proof (mid_bounds l r Hle) as Hmid.
    match goal with IH : _ -> _ -> exists _, _ |- _ =>
      destruct IH as (res & Hres & Hcase); [lia | assumption |] end.
    exists res. split; [assumption |].
    destruct Hcase as [-> | [Hb Hv]]; [left; reflexivity | right].
    split; [lia | assumption].
  - pose proof (mid_bounds l r Hle) as Hmid.
    match goal with IH : _ -> _ -> exists _, _ |- _ =>
      destruct IH as (res & Hres & Hcase); [assumption | lia |] end.
    exists res. split; [assumption |].
    destruct Hcase as [-> | [Hb Hv]]; [left; reflexivity | right].
    split; [lia | assumption].
Qed.

(** On an ascending sequence, with or without repeated ids, the loop ends
    with a position that holds the id, or with [-1] when no position
    between [left] and [right] holds it. *)
Lemma find_internal_id_loop_ascending mapping ext_id left right :
  ascending (external_ids mapping) = true ->
  0 <= left ->
  right < ExternalIdsLength mapping ->
  exists r,
    find_internal_id_loop mapping ext_id left right = Some r
    /\ (ExternalIds mapping r = Some ext_id
        \/ (r = -1
            /\ forall p, left <= p <= right ->
                 ExternalIds mapping p <> Some ext_id)).
Proof.
  funelim (find_internal_id_loop mapping ext_id left right).
  all: intros Hasc Hl Hr.
  - exists (-1). split; [reflexivity |]. right. split; [reflexivity |].
    intros p Hp. lia.
  - exfalso. pose proof (mid_bounds l r Hle) as Hmid.
    unfold ExternalIds, ExternalIdsLength in *.
    destruct ((l + r) / 2 <? 0) eqn:E; [lia |].
    match goal with H : _ !! _ = None |- _ => apply lookup_ge_None in H end.
    lia.
  - eexists. split; [reflexivity |]. left. subst. assumption.
  - pose proof (mid_bounds l r Hle) as Hmid.
    match goal with IH : _ -> _ -> _ -> exists _, _ |- _ =>
      destruct IH as (res & Hres & Hcase); [assumption | lia | assumption |] end.
    exists res. split; [assumption |].
    destruct Hcase as [Hfound | [-> Hnone]]; [left; assumption | right].
    split; [reflexivity |]. intros p Hp Hpx.
    destruct (decide ((l + r) / 2 + 1 <= p)) as [Hhi | Hlo];
      [apply (Hnone p); [lia | assumption] |].
    match goal with H : ExternalIds _ ((l + r) / 2) = Some _ |- _ =>
      apply ExternalIds_Some in H; destruct H as [_ Hm] end.
    apply ExternalIds_Some in Hpx. destruct Hpx as [_ Hpx].
    pose proof (ascending_lookup _ Hasc (Z.to_nat p)
                  (Z.to_nat ((l + r) / 2)) _ _ ltac:(lia) Hpx Hm).
    lia.
  - pose proof (mid_bounds l r Hle) as Hmid.
    match goal with IH : _ -> _ -> _ -> exists _, _ |- _ =>
      destruct IH as (res & Hres & Hcase); [assumption | assumption | lia |] end.
    exists res. split; [assumption |].
    destruct Hcase as [Hfound | [-> Hnone]]; [left; assumption | right].
    split; [reflexivity |]. intros p Hp Hpx.
    destruct (decide (p <= (l + r) / 2 - 1)) as [Hlo | Hhi];
      [apply (Hnone p); [lia | assumption] |].
    match goal with H : ExternalIds _ ((l + r) / 2) = Some _ |- _ =>
      apply ExternalIds_Some in H; destruct H as [_ Hm] end.
    apply ExternalIds_Some in Hpx. destruct Hpx as [_ Hpx].
    pose proof (ascending_lookup _ Hasc (Z.to_nat ((l + r) / 2))
                  (Z.to_nat p) _ _ ltac:(lia) Hm Hpx).
    lia.
Qed.

(** X8. On any sequence, ascending or not, [find_internal_id] ends without
    reading outside the sequence, and what it returns is [-1] or a position
    of the sequence that holds the id: it never gives a wrong position. *)
Theorem find_internal_id_any_input (mapping : IdMapping) (ext_id : Z) :
  exists r,
    find_internal_id mapping ext_id = Some r
    /\ (r = -1
        \/ (0 <= r < ExternalIdsLength mapping
            /\ ExternalIds mapping r = Some ext_id)).
Proof.
  destruct (find_internal_id_loop_sound mapping ext_id 0
              (ExternalIdsLength mapping - 1)) as (r & Hr & Hcase); [lia | lia |].
  exists r. split; [exact Hr |].
  destruct Hcase as [-> | [Hb Hv]]; [left; reflexivity | right].
  split; [lia | assumption].
Qed.

(** X9. Ids may repeat: on a sequence that ascends without being strict,
    [find_internal_id] returns a position that holds the id when the id
    occurs, and [-1] when it does not. *)
Theorem find_internal_id_ascending (mapping : IdMapping) (ext_id : Z) :
  ascending (external_ids mapping) = true ->
  exists r,
    find_internal_id mapping ext_id = Some r
    /\ (ext_id ∈ external_ids mapping -> ExternalIds mapping r = Some ext_id)
    /\ (ext_id ∉ external_ids mapping -> r = -1).
Proof.
  intros Hasc.
  destruct (find_internal_id_loop_ascending mapping ext_id 0
              (ExternalIdsLength mapping - 1) Hasc)
    as (r & Hr & Hcase); [lia | lia |].
  exists r. split; [exact Hr |]. split.
  - intros Hin. destruct Hcase as [Hfound | [_ Hnone]]; [assumption |].
    exfalso. apply list_elem_of_lookup_1 in Hin. destruct Hin as [p Hp].
    apply (Hnone (Z.of_nat p)).
    + apply lookup_lt_Some in Hp. unfold ExternalIdsLength. lia.
    + apply ExternalIds_Some. rewrite Nat2Z.id. split; [lia | assumption].
  - intros Hnot. destruct Hcase as [Hfound | [-> _]]; [| reflexivity].
    exfalso. apply Hnot. apply ExternalIds_Some in Hfound.
    destruct Hfound as [_ Hfound].
    eapply list_elem_of_lookup_2. eassumption.
Qed.

Lemma find_internal_id_ascending_witness :
  ascending [100; 200; 200; 300] = true
  /\ exists r,
      find_internal_id {| external_ids := [100; 200; 200; 300] |} 200 = Some r
      /\ ExternalIds {| external_ids := [100; 200; 200; 300] |} r = Some 200.
Proof.
  split; [reflexivity |].
  destruct (find_internal_id_ascending
              {| external_ids := [100; 200; 200; 300] |} 200 eq_refl)
    as (r & Hr & Hin & _).
  exists r. split; [exact Hr |]. apply Hin.
  apply (bool_decide_unpack _). vm_compute. exact I.
Defined.

(** Without the order the search can miss an id that is there. *)
Example find_internal_id_unsorted_miss :
  find_internal_id {| external_ids := [300; 100; 200] |} 300 = Some (-1).
Proof. reflexivity. Qed.

(** ** Queries on a well-formed CSR topology *)

Lemma csr_wf_unpack (topo : GraphTopology) :
  csr_wf topo = true ->
  Z.of_nat (length (first_edge topo)) = node_count topo + 1
  /\ ascending (first_edge topo) = true
  /\ first_edge topo !! 0%nat = Some 0
  /\ first_edge topo !! Nat.pred (length (first_edge topo))
     = Some (Z.of_nat (length (edge_target topo)))
  /\ Forall (fun t => 0 <= t < node_count topo) (edge_target topo).
Proof.
  unfold csr_wf. rewrite !andb_true_iff.
  intros [[[[Hlen Hasc] Hhead] Hlast] Htargets].
  apply Z.eqb_eq in Hlen.
  apply bool_decide_eq_true in Hhead, Hlast.
  rewrite head_lookup in Hhead. rewrite last_lookup in Hlast.
  repeat split; try assumption.
  apply Forall_forall. intros t Hin.
  rewrite forallb_forall in Htargets.
  apply list_elem_of_In in Hin. specialize (Htargets t Hin).
  apply andb_true_iff in Htargets. destruct Htargets as [H0 H1].
  apply Z.leb_le in H0. apply Z.ltb_lt in H1. lia.
Qed.

Lemma FirstEdge_Some topo j v :
  FirstEdge topo j = Some v
  <-> 0 <= j /\ first_edge topo !! Z.to_nat j = Some v.
Proof.
  unfold FirstEdge. destruct (j <? 0) eqn:Hj.
  - split; [discriminate | lia].
  - split; [intros H; split; [lia | assumption] | intros [_ H]; assumption].
Qed.

(** The reads of the edges [start], ..., [start + n - 1] succeed when these
    are positions of [edge_target], and give that part of the array. *)
Lemma neighbor_targets_slice topo (start : Z) (n : nat) :
  0 <= start ->
  (Z.to_nat start + n <= length (edge_target topo))%nat ->
  neighbor_targets topo start (start + Z.of_nat n)
  = Some (take n (drop (Z.to_nat start) (edge_target topo))).
Proof.
  intros H0 Hfit. unfold neighbor_targets, range.
  replace (start + Z.of_nat n - start) with (Z.of_nat n) by lia.
  apply mapM_Some_2. apply Forall2_same_length_lookup_2.
  - rewrite length_seqZ, length_take, length_drop. lia.
  - intros i x y Hx Hy.
    apply lookup_seqZ in Hx. destruct Hx as [-> Hi].
    apply lookup_take_Some in Hy. destruct Hy as [Hy _].
    rewrite lookup_drop in Hy.
    unfold EdgeTarget. destruct (start + Z.of_nat i <? 0) eqn:E; [lia |].
    replace (Z.to_nat (start + Z.of_nat i)) with (Z.to_nat start + i)%nat by lia.
    assumption.
Qed.

Lemma csr_query topo node :
  csr_wf topo = true ->
  0 <= node < node_count topo ->
  exists node_start node_end,
    neighbors topo node = Some (node_start, node_end)
    /\ 0 <= node_start <= node_end
    /\ node_end <= Z.of_nat (length (edge_target topo))
    /\ neighbor_list topo node
       = Some (take (Z.to_nat (node_end - node_start))
                 (drop (Z.to_nat node_start) (edge_target topo))).
Proof.
  intros Hwf Hnode.
  destruct (csr_wf_unpack topo Hwf) as (Hlen & Hasc & Hhead & Hlast & _).
  destruct (lookup_lt_is_Some_2 (first_edge topo) (Z.to_nat node))
    as [s Hs]; [lia |].
  destruct (lookup_lt_is_Some_2 (first_edge topo) (Z.to_nat (node + 1)))
    as [e He]; [lia |].
  exists s, e.
  assert (Hn : neighbors topo node = Some (s, e)).
  { unfold neighbors.
    rewrite (proj2 (FirstEdge_Some topo node s)) by (split; [lia | assumption]).
    rewrite (proj2 (FirstEdge_Some topo (node + 1) e))
      by (split; [lia | assumption]).
    reflexivity. }
  pose proof (ascending_lookup _ Hasc 0%nat (Z.to_nat node) _ _
                ltac:(lia) Hhead Hs) as H0s.
  pose proof (ascending_lookup _ Hasc (Z.to_nat node) (Z.to_nat (node + 1)) _ _
                ltac:(lia) Hs He) as Hse.
  pose proof (ascending_lookup _ Hasc (Z.to_nat (node + 1))
                (Nat.pred (length (first_edge topo))) _ _
                ltac:(lia) He Hlast) as Hel.
  split; [exact Hn | split; [lia | split; [lia |]]].
  unfold neighbor_list. rewrite Hn.
  replace e with (s + Z.of_nat (Z.to_nat (e - s))) at 1 by lia.
  apply neighbor_targets_slice; lia.
Qed.

(** X10. In a well-formed topology the query of any node from 0 to
    [node_count - 1] succeeds: its two offsets are in order and inside
    [edge_target], and its targets are the part of [edge_target] between
    them, as many as the offsets differ, each of them a node. *)
Theorem neighbors_in_range (topo : GraphTopology) (node : Z) :
  csr_wf topo = true ->
  0 <= node < node_count topo ->
  exists node_start node_end targets,
    neighbors topo node = Some (node_start, node_end)
    /\ 0 <= node_start <= node_end
    /\ neighbor_targets topo node_start node_end = Some targets
    /\ targets = take (Z.to_nat (node_end - node_start))
                   (drop (Z.to_nat node_start) (edge_target topo))
    /\ Z.of_nat (length targets) = node_end - node_start
    /\ Forall (fun t => 0 <= t < node_count topo) targets.
Proof.
  intros Hwf Hnode.
  destruct (csr_query topo node Hwf Hnode) as (s & e & Hn & Hse & Hel & Hl).
  destruct (csr_wf_unpack topo Hwf) as (_ & _ & _ & _ & Htargets).
  exists s, e, (take (Z.to_nat (e - s)) (drop (Z.to_nat s) (edge_target topo))).
  unfold neighbor_list in Hl. rewrite Hn in Hl.
  split; [exact Hn | split; [exact Hse | split; [exact Hl | split]]];
    [reflexivity | split].
  - rewrite length_take, length_drop. lia.
  - apply Forall_take, Forall_drop. assumption.
Qed.

Lemma neighbors_in_range_witness :
  csr_wf test_topology = true
  /\ 0 <= 1 < node_count test_topology
  /\ exists node_start node_end targets,
      neighbors test_topology 1 = Some (node_start, node_end)
      /\ neighbor_targets test_topology node_start node_end = Some targets
      /\ Z.of_nat (length targets) = node_end - node_start.
Proof.
  assert (Hwf : csr_wf test_topology = true) by reflexivity.
  assert (Hnode : 0 <= 1 < node_count test_topology) by (simpl; lia).
  split; [exact Hwf | split; [exact Hnode |]].
  destruct (neighbors_in_range test_topology 1 Hwf Hnode)
    as (s & e & targets & Hn & _ & Ht & _ & Hlen & _).
  exists s, e, targets. split; [exact Hn | split; [exact Ht | exact Hlen]].
Defined.

(** ** Building the arrays of the benchmark *)

Lemma randint_range rng pos a b : a <= b -> a <= randint rng pos a b <= b.
Proof.
  intros Hab. unfold randint.
  pose proof (Z.mod_pos_bound (rng pos) (b - a + 1) ltac:(lia)). lia.
Qed.

Lemma csr_add_edges rng node_count (n : nat) st :
  1 <= node_count ->
  Forall (fun t => 0 <= t < node_count) (b_edge_target st) ->
  let st' := Nat.iter n (csr_add_edge rng node_count) st in
  b_first_edge st' = b_first_edge st
  /\ b_current_edge st' = b_current_edge st + Z.of_nat n
  /\ length (b_edge_target st') = (length (b_edge_target st) + n)%nat
  /\ Forall (fun t => 0 <= t < node_count) (b_edge_target st').
Proof.
  intros Hnc Hall. induction n as [| n IH]; simpl.
  - repeat split; try assumption; lia.
  - destruct IH as (Hfe & Hcur & Hlen & Hall').
    split; [assumption | split; [lia | split]].
    + rewrite length_app, Hlen. simpl. lia.
    + apply Forall_app. split; [assumption |].
      constructor; [| constructor].
      pose proof (randint_range rng
                    (b_draws (Nat.iter n (csr_add_edge rng node_count) st))
                    0 (node_count - 1) ltac:(lia)).
      lia.
Qed.

Lemma csr_add_node_inv rng node_count edge_count nodes st :
  1 <= node_count ->
  build_inv node_count edge_count nodes st ->
  build_inv node_count edge_count (S nodes)
    (csr_add_node rng node_count edge_count st).
Proof.
  intros Hnc (Hlen & Hhead & Hadj & Hlast & Hcur & Hcap & Hall).
  unfold csr_add_node.
  set (degree := Z.min (randint rng (b_draws st) 0 10)
                   (edge_count - b_current_edge st)).
  pose proof (randint_range rng (b_draws st) 0 10 ltac:(lia)) as Hdraw.
  destruct (csr_add_edges rng node_count (Z.to_nat degree)
              {| b_draws := S (b_draws st);
                 b_first_edge := b_first_edge st;
                 b_edge_target := b_edge_target st;
                 b_weights := b_weights st;
                 b_current_edge := b_current_edge st |} Hnc Hall)
    as (Hfe & Hcur' & Hlen' & Hall').
  simpl in Hfe, Hcur', Hlen'.
  set (st' := Nat.iter (Z.to_nat degree) (csr_add_edge rng node_count) _) in *.
  unfold build_inv. simpl. rewrite Hfe.
  assert (Hn : 0 <= Z.of_nat (Z.to_nat degree) <= 10) by lia.
  split; [rewrite length_app; simpl; lia |].
  split; [rewrite lookup_app_l by lia; assumption |].
  split; [| split; [| split; [lia | split; [lia | assumption]]]].
  - intros i a b Ha Hb.
    destruct (decide (S i < length (b_first_edge st))%nat) as [Hin | Hout].
    + rewrite lookup_app_l in Ha by lia. rewrite lookup_app_l in Hb by lia.
      eapply Hadj; eassumption.
    + assert (Hi : i = nodes).
      { apply lookup_lt_Some in Hb. rewrite length_app in Hb. simpl in Hb. lia. }
      subst i. rewrite lookup_app_l in Ha by lia.
      rewrite lookup_app_r in Hb by lia.
      replace (S nodes - length (b_first_edge st))%nat with 0%nat in Hb by lia.
      simpl in Hb. injection Hb as <-.
      rewrite Hlast in Ha. injection Ha as <-. lia.
  - rewrite lookup_app_r by lia.
    replace (S nodes - length (b_first_edge st))%nat with 0%nat by lia.
    reflexivity.
Qed.

Lemma csr_generate_inv rng node_count edge_count :
  build_inv node_count edge_count (Z.to_nat node_count)
    (csr_generate rng node_count edge_count).
Proof.
  unfold csr_generate.
  assert (Hgen : forall nodes : nat,
             (nodes = 0%nat \/ 1 <= node_count) ->
             build_inv node_count edge_count nodes
               (Nat.iter nodes (csr_add_node rng node_count edge_count)
                  csr_start)).
  { induction nodes as [| nodes IH]; intros Hcase.
    - unfold build_inv. simpl.
      split; [reflexivity | split; [reflexivity | split]].
      + intros i a b Ha Hb. destruct i; discriminate.
      + split; [reflexivity | split; [reflexivity | split; [lia | constructor]]].
    - destruct Hcase as [Hz | Hnc]; [discriminate |].
      simpl. apply csr_add_node_inv; [assumption |]. apply IH. right. assumption. }
  apply Hgen. lia.
Qed.

Lemma ascending_adjacent (ids : list Z) :
  (forall (i : nat) (a b : Z),
      ids !! i = Some a -> ids !! S i = Some b -> a <= b) ->
  ascending ids = true.
Proof.
  induction ids as [| x ids IH]; intros Hadj; [reflexivity |].
  destruct ids as [| y ids']; [reflexivity |].
  simpl. apply andb_true_iff. split.
  - apply Z.leb_le. apply (Hadj 0%nat); reflexivity.
  - apply IH. intros i a b Ha Hb. apply (Hadj (S i)); assumption.
Qed.

Lemma benchmark_topology_csr_wf rng node_count edge_count :
  0 <= node_count ->
  csr_wf (benchmark_topology rng node_count edge_count) = true.
Proof.
  intros Hnc.
  destruct (csr_generate_inv rng node_count edge_count)
    as (Hlen & Hhead & Hadj & Hlast & Hcur & _ & Hall).
  unfold csr_wf, benchmark_topology. simpl.
  rewrite !andb_true_iff. repeat split.
  - apply Z.eqb_eq. rewrite Hlen. lia.
  - apply ascending_adjacent. intros i a b Ha Hb.
    destruct (Hadj i a b Ha Hb). assumption.
  - apply bool_decide_eq_true. rewrite head_lookup. assumption.
  - apply bool_decide_eq_true. rewrite last_lookup, Hlen. simpl.
    rewrite Hlast. f_equal. assumption.
  - apply forallb_forall. intros t Hin.
    apply list_elem_of_In in Hin.
    rewrite Forall_forall in Hall. specialize (Hall t Hin).
    apply andb_true_iff. split; [apply Z.leb_le | apply Z.ltb_lt]; lia.
Qed.

Lemma benchmark_degree rng node_count edge_count node node_start node_end :
  neighbors (benchmark_topology rng node_count edge_count) node
  = Some (node_start, node_end) ->
  0 <= node_end - node_start <= 10.
Proof.
  intros Hn.
  destruct (csr_generate_inv rng node_count edge_count)
    as (_ & _ & Hadj & _).
  unfold neighbors in Hn.
  destruct (FirstEdge _ node) as [s |] eqn:Hs; [| discriminate].
  destruct (FirstEdge _ (node + 1)) as [e |] eqn:He; [| discriminate].
  injection Hn as <- <-.
  apply FirstEdge_Some in Hs, He. destruct Hs as [H0 Hs]. destruct He as [_ He].
  replace (Z.to_nat (node + 1)) with (S (Z.to_nat node)) in He by lia.
  simpl in Hs, He. pose proof (Hadj _ _ _ Hs He). lia.
Qed.

Lemma csr_add_edges_weights rng node_count (n : nat) st :
  length (b_weights st) = length (b_edge_target st) ->
  length (b_weights (Nat.iter n (csr_add_edge rng node_count) st))
  = length (b_edge_target (Nat.iter n (csr_add_edge rng node_count) st)).
Proof.
  intros Hst. induction n as [| n IH]; simpl; [assumption |].
  rewrite !length_app, IH. reflexivity.
Qed.

(** The benchmark appends one weight with each target. *)
Lemma csr_generate_weights rng node_count edge_count :
  length (b_weights (csr_generate rng node_count edge_count))
  = length (b_edge_target (csr_generate rng node_count edge_count)).
Proof.
  unfold csr_generate.
  induction (Z.to_nat node_count) as [| nodes IH]; [reflexivity |].
  simpl. unfold csr_add_node at 1. simpl.
  apply csr_add_edges_weights. simpl. exact IH.
Qed.

Lemma count_edges_run topo total (edge_start : Z) (n : nat) :
  0 <= edge_start ->
  (Z.to_nat edge_start + n <= length (edge_target (w_topology topo)))%nat ->
  length (base_weights topo) = length (edge_target (w_topology topo)) ->
  count_edges topo total edge_start (edge_start + Z.of_nat n)
  = Some (total + Z.of_nat n).
Proof.
  intros H0 Hfit Hw. unfold count_edges, range.
  replace (edge_start + Z.of_nat n - edge_start) with (Z.of_nat n) by lia.
  assert (Hgen : forall (l : list Z) (acc : Z),
             Forall (fun e => is_Some (EdgeTarget (w_topology topo) e)
                              /\ is_Some (BaseWeights topo e)) l ->
             foldl (fun total e =>
                      match total, EdgeTarget (w_topology topo) e,
                            BaseWeights topo e with
                      | Some k, Some _, Some _ => Some (k + 1)
                      | _, _, _ => None
                      end) (Some acc) l
             = Some (acc + Z.of_nat (length l))).
  { induction l as [| e l IH]; intros acc Hall.
    - simpl. f_equal. lia.
    - inversion Hall as [| ? ? [[t Ht] [w Hw']] Hall']; subst.
      simpl. rewrite Ht, Hw'. rewrite (IH _ Hall'). f_equal. lia. }
  rewrite Hgen.
  - rewrite length_seqZ. f_equal. lia.
  - apply Forall_forall. intros e Hin.
    apply list_elem_of_lookup_1 in Hin. destruct Hin as [i Hi].
    apply lookup_seqZ in Hi. destruct Hi as [-> Hi].
    unfold EdgeTarget, BaseWeights.
    destruct (edge_start + Z.of_nat i <? 0) eqn:E; [lia |].
    split; apply lookup_lt_is_Some_2; lia.
Qed.

Lemma count_edges_between topo total (edge_start edge_end : Z) :
  0 <= edge_start <= edge_end ->
  edge_end <= Z.of_nat (length (edge_target (w_topology topo))) ->
  length (base_weights topo) = length (edge_target (w_topology topo)) ->
  count_edges topo total edge_start edge_end
  = Some (total + (edge_end - edge_start)).
Proof.
  intros Hse Hel Hw.
  pose proof (count_edges_run topo total edge_start
                (Z.to_nat (edge_end - edge_start)) ltac:(lia) ltac:(lia) Hw)
    as Hrun.
  replace (edge_start + Z.of_nat (Z.to_nat (edge_end - edge_start)))
    with edge_end in Hrun by lia.
  rewrite Hrun. f_equal. lia.
Qed.

Lemma benchmark_queries_run rng topo (queries : nat) :
  csr_wf (w_topology topo) = true ->
  1 <= node_count (w_topology topo) ->
  length (base_weights topo) = length (edge_target (w_topology topo)) ->
  (forall node s e,
      neighbors (w_topology topo) node = Some (s, e) -> e - s <= 10) ->
  forall (pos : nat) (total : Z),
  exists total',
    benchmark_queries rng topo queries pos total = Some total'
    /\ total <= total' <= total + 10 * Z.of_nat queries.
Proof.
  intros Hwf Hnc Hw Hdeg. induction queries as [| q IH]; intros pos total.
  - exists total. split; [reflexivity | lia].
  - cbn [benchmark_queries]. cbv zeta.
    pose proof (randint_range rng pos 0 (node_count (w_topology topo) - 1)
                  ltac:(lia)) as Hid.
    destruct (csr_query (w_topology topo)
                (randint rng pos 0 (node_count (w_topology topo) - 1)) Hwf
                ltac:(lia)) as (s & e & Hn & Hse & Hel & _).
    rewrite Hn, (count_edges_between topo total s e Hse Hel Hw).
    destruct (IH (S pos) (total + (e - s))) as (total' & Hrun & Hbound).
    exists total'. split; [exact Hrun |].
    pose proof (Hdeg _ _ _ Hn). lia.
Qed.

(** X11. The arrays that the benchmark builds are a well-formed CSR
    topology whatever the generator draws and whatever the bound on the
    edges is: [first_edge] has [node_count + 1] offsets, starts at 0, does
    not go down and ends at the number of targets, and every target is a
    node. *)
Theorem benchmark_topology_well_formed
    (rng : nat -> Z) (node_count edge_count : Z) :
  0 <= node_count ->
  csr_wf (benchmark_topology rng node_count edge_count) = true.
Proof. apply benchmark_topology_csr_wf. Qed.

Lemma benchmark_topology_well_formed_witness :
  0 <= 3
  /\ csr_wf (benchmark_topology (fun n => Z.of_nat n * 7 + 3) 3 5) = true.
Proof.
  assert (Hnc : 0 <= 3) by lia.
  split; [exact Hnc |].
  exact (benchmark_topology_well_formed (fun n => Z.of_nat n * 7 + 3) 3 5 Hnc).
Defined.

(** X12. The benchmark never builds more edges than its bound allows, and
    the number of edges it stores in the topology is the number of targets
    it has appended. *)
Theorem benchmark_edge_cap (rng : nat -> Z) (nodes max_edges : Z) :
  0 <= max_edges ->
  edge_count (benchmark_topology rng nodes max_edges) <= max_edges
  /\ edge_count (benchmark_topology rng nodes max_edges)
     = Z.of_nat (length (edge_target (benchmark_topology rng nodes max_edges))).
Proof.
  intros Hmax.
  destruct (csr_generate_inv rng nodes max_edges)
    as (_ & _ & _ & _ & Hcur & Hcap & _).
  unfold benchmark_topology. simpl. split; [lia | assumption].
Qed.

Lemma benchmark_edge_cap_witness :
  0 <= 5
  /\ edge_count (benchmark_topology (fun n => Z.of_nat n * 7 + 3) 3 5) <= 5.
Proof.
  assert (Hmax : 0 <= 5) by lia.
  split; [exact Hmax |].
  exact (proj1 (benchmark_edge_cap (fun n => Z.of_nat n * 7 + 3) 3 5 Hmax)).
Defined.

(** X13. Every node of the topology that the benchmark builds has between
    0 and 10 outgoing edges. *)
Theorem benchmark_degree_bound
    (rng : nat -> Z) (nodes max_edges : Z) (node node_start node_end : Z) :
  neighbors (benchmark_topology rng nodes max_edges) node
  = Some (node_start, node_end) ->
  0 <= node_end - node_start <= 10.
Proof. apply benchmark_degree. Qed.

Lemma benchmark_degree_bound_witness :
  neighbors (benchmark_topology (fun n => Z.of_nat n * 7 + 3) 3 5) 0
  = Some (0, 3)
  /\ 0 <= 3 - 0 <= 10.
Proof.
  assert (Hn : neighbors (benchmark_topology (fun n => Z.of_nat n * 7 + 3) 3 5) 0
               = Some (0, 3)) by (vm_compute; reflexivity).
  split; [exact Hn |].
  exact (benchmark_degree_bound _ 3 5 0 0 3 Hn).
Defined.

(** X14. The queries of the benchmark never read outside the arrays it has
    built, [first_edge], [edge_target] and [weights]: with at least one
    node, any number of rounds ends with a count, and the count is at most
    10 for each round. *)
Theorem benchmark_queries_in_range
    (rng : nat -> Z) (nodes max_edges : Z) (queries pos : nat) :
  1 <= nodes ->
  exists total_neighbors,
    benchmark_queries rng (benchmark_weighted_topology rng nodes max_edges)
      queries pos 0 = Some total_neighbors
    /\ 0 <= total_neighbors <= 10 * Z.of_nat queries.
Proof.
  intros Hnodes.
  destruct (benchmark_queries_run rng
              (benchmark_weighted_topology rng nodes max_edges) queries)
    with (pos := pos) (total := 0) as (total & Hrun & Hbound).
  - apply benchmark_topology_csr_wf. lia.
  - exact Hnodes.
  - apply csr_generate_weights.
  - intros node s e Hn. pose proof (benchmark_degree _ _ _ _ _ _ Hn). lia.
  - exists total. split; [exact Hrun | lia].
Qed.

Lemma benchmark_queries_in_range_witness :
  1 <= 3
  /\ exists total_neighbors,
      benchmark_queries (fun n => Z.of_nat n * 7 + 3)
        (benchmark_weighted_topology (fun n => Z.of_nat n * 7 + 3) 3 5) 4 11 0
      = Some total_neighbors
      /\ 0 <= total_neighbors <= 10 * Z.of_nat 4.
Proof.
  assert (Hnodes : 1 <= 3) by lia.
  split; [exact Hnodes |].
  exact (benchmark_queries_in_range (fun n => Z.of_nat n * 7 + 3) 3 5 4 11 Hnodes).
Defined.

(** The benchmark on a small graph: four rounds count five edges, and a
    topology with a weight missing makes a read fall outside. *)
Example benchmark_queries_small :
  benchmark_queries (fun n => Z.of_nat n * 7 + 3)
    (benchmark_weighted_topology (fun n => Z.of_nat n * 7 + 3) 3 5) 4 11 0
  = Some 5.
Proof. vm_compute. reflexivity. Qed.

Example benchmark_queries_missing_weight :
  benchmark_queries (fun n => Z.of_nat n * 7 + 3)
    {| w_topology := test_topology; base_weights := [] |} 1 3 0 = None.
Proof. vm_compute. reflexivity. Qed.

(** ** Every edge belongs to one node *)

Lemma neighbor_lists_prefix topo :
  csr_wf topo = true ->
  forall k : nat,
    Z.of_nat k <= node_count topo ->
    exists (lists : list (list Z)) (offset : Z),
      mapM (neighbor_list topo) (range 0 (Z.of_nat k)) = Some lists
      /\ first_edge topo !! k = Some offset
      /\ 0 <= offset
      /\ concat lists = take (Z.to_nat offset) (edge_target topo).
Proof.
  intros Hwf.
  destruct (csr_wf_unpack topo Hwf) as (Hlen & Hasc & Hhead & Hlast & _).
  unfold range. induction k as [| k IH]; intros Hk.
  - exists [], 0. simpl.
    split; [reflexivity | split; [assumption | split; [lia | reflexivity]]].
  - destruct IH as (lists & offset & Hrun & Hoff & H0 & Hcat); [lia |].
    destruct (csr_query topo (Z.of_nat k) Hwf ltac:(lia))
      as (s & e & Hn & Hse & Hel & Hl).
    assert (Hs : s = offset).
    { unfold neighbors in Hn.
      destruct (FirstEdge topo (Z.of_nat k)) as [s' |] eqn:Hs'; [| discriminate].
      destruct (FirstEdge topo (Z.of_nat k + 1)); [| discriminate].
      injection Hn as -> _. apply FirstEdge_Some in Hs'.
      rewrite Nat2Z.id in Hs'. destruct Hs' as [_ Hs']. congruence. }
    subst s.
    assert (He : first_edge topo !! S k = Some e).
    { unfold neighbors in Hn.
      destruct (FirstEdge topo (Z.of_nat k)); [| discriminate].
      destruct (FirstEdge topo (Z.of_nat k + 1)) as [e' |] eqn:He';
        [| discriminate].
      injection Hn as _ ->. apply FirstEdge_Some in He'.
      replace (Z.to_nat (Z.of_nat k + 1)) with (S k) in He' by lia.
      apply He'. }
    exists (lists ++ [take (Z.to_nat (e - offset))
                        (drop (Z.to_nat offset) (edge_target topo))]), e.
    split; [| split; [exact He | split; [lia |]]].
    + replace (Z.of_nat (S k) - 0) with (Z.of_nat (S k)) by lia.
      rewrite seqZ_S. apply mapM_Some_2. apply Forall2_app.
      * apply mapM_Some_1.
        replace (Z.of_nat k - 0) with (Z.of_nat k) in Hrun by lia.
        exact Hrun.
      * constructor; [| constructor]. simpl. exact Hl.
    + rewrite concat_app, Hcat. simpl. rewrite app_nil_r, take_take_drop.
      f_equal. lia.
Qed.

(** X15. In a well-formed topology the neighbour lists of the nodes
    [0], ..., [node_count - 1], one after the other, are [edge_target]: every
    edge is found from exactly one node, and none is left out. *)
Theorem neighbor_lists_partition (topo : GraphTopology) :
  csr_wf topo = true ->
  exists lists : list (list Z),
    mapM (neighbor_list topo) (range 0 (node_count topo)) = Some lists
    /\ concat lists = edge_target topo.
Proof.
  intros Hwf.
  destruct (csr_wf_unpack topo Hwf) as (Hlen & _ & Hhead & Hlast & _).
  apply lookup_lt_Some in Hhead.
  destruct (neighbor_lists_prefix topo Hwf (Z.to_nat (node_count topo)))
    as (lists & offset & Hrun & Hoff & H0 & Hcat); [lia |].
  exists lists. rewrite Z2Nat.id in Hrun by lia. split; [exact Hrun |].
  replace (Nat.pred (length (first_edge topo)))
    with (Z.to_nat (node_count topo)) in Hlast by lia.
  rewrite Hoff in Hlast. injection Hlast as ->.
  rewrite Hcat, Nat2Z.id. apply firstn_all.
Qed.

Lemma neighbor_lists_partition_witness :
  csr_wf test_topology = true
  /\ exists lists : list (list Z),
      mapM (neighbor_list test_topology) (range 0 (node_count test_topology))
      = Some lists
      /\ concat lists = edge_target test_topology.
Proof.
  assert (Hwf : csr_wf test_topology = true) by reflexivity.
  split; [exact Hwf |].
  exact (neighbor_lists_partition test_topology Hwf).
Defined.

(** The lists of the test: [0->[1,2], 1->[2], 2->[3], 3->[]]. *)
Example test_topology_lists :
  mapM (neighbor_list test_topology) (range 0 4)
  = Some [[1; 2]; [2]; [3]; []].
Proof. reflexivity. Qed.

(** ** The ids are the positions of a dense table *)

(** X16. The id that [get_or_create] returns is a position of the reverse
    list: it is at least 0 and below the size that the mapper has after
    the call. *)
Theorem get_or_create_in_range (h0 : heap) (ops : list op) (x : string) :
  exists i n,
    eval (client ops (fun self =>
            let* i := get_or_create self x in
            let* n := size self in
            ret (i, n))) h0 = Ok (i, n)
    /\ 0 <= i < n.
Proof.
  destruct (client_run h0 ops) as (self & h & Hinv & _ & Hk).
  unfold eval. rewrite Hk.
  destruct (get_or_create_run self h x Hinv) as (i & h' & Hg & Hinv' & Hx & _).
  exists i, (Z.of_nat (length (reverse self h'))).
  rewrite (bind_ok _ _ _ _ _ Hg), (bind_ok _ _ _ _ _ (size_run self h')).
  split; [reflexivity |].
  destruct (inv_fwd_rev _ _ Hinv' _ _ Hx) as [Hi Hr].
  apply lookup_lt_Some in Hr. lia.
Qed.

(** X17. The mapping that [export_mappings] returns has one item for each
    registered string, and its values are the ids from 0 to [size() - 1],
    each of them once. *)
Theorem export_mappings_dense (h0 : heap) (ops : list op) :
  exists d n,
    eval (client ops (fun self =>
            let* r := export_mappings self in
            let* d := dict_items r in
            let* n := size self in
            ret (d, n))) h0 = Ok (d, n)
    /\ Z.of_nat (base.size d) = n
    /\ dom d = list_to_set (created ops)
    /\ (forall i, (exists s, d !! s = Some i) <-> 0 <= i < n)
    /\ (forall s s' i, d !! s = Some i -> d !! s' = Some i -> s = s').
Proof.
  destruct (client_run h0 ops) as (self & h & Hinv & Hdom & Hk).
  unfold eval. rewrite Hk.
  rewrite (bind_ok _ _ _ _ _ (export_mappings_run self h)).
  set (h1 := {| dicts := dicts h ++ [forward self h]; lists := lists h |}).
  assert (Hnew : dict_at h1 (length (dicts h)) = forward self h)
    by (apply (dict_at_app_new h); reflexivity).
  exists (forward self h), (Z.of_nat (length (reverse self h))).
  unfold bind, dict_items, ret. simpl. rewrite Hnew.
  split; [reflexivity |].
  split; [rewrite (inv_size _ _ Hinv); reflexivity |].
  split; [exact Hdom | split].
  - intros i. split.
    + intros [s Hs]. destruct (inv_fwd_rev _ _ Hinv _ _ Hs) as [Hi Hr].
      apply lookup_lt_Some in Hr. lia.
    + intros Hi.
      destruct (lookup_lt_is_Some_2 (reverse self h) (Z.to_nat i)) as [s Hs];
        [lia |].
      exists s. rewrite (inv_rev_fwd _ _ Hinv _ _ Hs). f_equal. lia.
  - intros s s' i Hs Hs'.
    destruct (inv_fwd_rev _ _ Hinv _ _ Hs) as [_ Hr].
    destruct (inv_fwd_rev _ _ Hinv _ _ Hs') as [_ Hr'].
    congruence.
Qed.

Lemma export_mappings_dense_witness :
  exists d n,
    eval (client test_simple_ascii (fun self =>
            let* r := export_mappings self in
            let* d := dict_items r in
            let* n := size self in
            ret (d, n))) empty_heap = Ok (d, n)
    /\ 0 <= 1 < n
    /\ exists s, d !! s = Some 1.
Proof.
  destruct (export_mappings_dense empty_heap test_simple_ascii)
    as (d & n & Hrun & _ & _ & Hvals & _).
  exists d, n.
  assert (Hn : n = 2).
  { pose proof Hrun as Hc. vm_compute in Hc. injection Hc as _ Hc.
    symmetry. exact Hc. }
  assert (Hrange : 0 <= 1 < n) by lia.
  split; [exact Hrun | split; [exact Hrange |]].
  apply Hvals. exact Hrange.
Defined.

(** ** The arrays of the benchmark fit their element type *)

Lemma benchmark_offsets_bound rng nodes max_edges :
  forall (i : nat) (a : Z),
    first_edge (benchmark_topology rng nodes max_edges) !! i = Some a ->
    0 <= a <= 10 * Z.of_nat i.
Proof.
  destruct (csr_generate_inv rng nodes max_edges)
    as (_ & Hhead & Hadj & _).
  unfold benchmark_topology. simpl.
  induction i as [| i IH]; intros a Ha.
  - rewrite Hhead in Ha. injection Ha as <-. lia.
  - destruct (lookup_lt_is_Some_2
                (b_first_edge (csr_generate rng nodes max_edges)) i)
      as [a' Ha']; [apply lookup_lt_Some in Ha; lia |].
    specialize (IH _ Ha'). pose proof (Hadj _ _ _ Ha' Ha). lia.
Qed.

(** X18. With up to 200 million nodes, every offset and every target that
    the benchmark builds fits the 32-bit element type of the arrays it is
    stored in. *)
Theorem benchmark_arrays_int32 (rng : nat -> Z) (nodes max_edges : Z) :
  0 <= nodes <= 200000000 ->
  Forall int32 (first_edge (benchmark_topology rng nodes max_edges))
  /\ Forall int32 (edge_target (benchmark_topology rng nodes max_edges)).
Proof.
  intros Hnodes.
  destruct (csr_generate_inv rng nodes max_edges)
    as (Hlen & _ & _ & _ & _ & _ & Hall).
  split.
  - apply Forall_lookup. intros i a Ha.
    pose proof (benchmark_offsets_bound rng nodes max_edges i a Ha) as Hb.
    apply lookup_lt_Some in Ha. unfold benchmark_topology in Ha. simpl in Ha.
    unfold int32. lia.
  - unfold benchmark_topology. simpl.
    eapply Forall_impl; [exact Hall |].
    intros t Ht. unfold int32. simpl in Ht. lia.
Qed.

Lemma benchmark_arrays_int32_witness :
  0 <= 3 <= 200000000
  /\ Forall int32
       (first_edge (benchmark_topology (fun n => Z.of_nat n * 7 + 3) 3 5)).
Proof.
  assert (Hnodes : 0 <= 3 <= 200000000) by lia.
  split; [exact Hnodes |].
  exact (proj1 (benchmark_arrays_int32 (fun n => Z.of_nat n * 7 + 3) 3 5 Hnodes)).
Defined.
